(** * Structure validation and ACSL injection: a Rocq model

    A shallow embedding of [src/tests/validation_treesitter.py] (the
    tree-sitter based extractor, comparator, planner, splicer and their
    orchestrator) and of [validate_spec_structure] from
    [src/tests/injection.py], followed by the properties of the
    specification that were checked against it.

    Python values are modelled as the interpreter has them: a [str] is a
    sequence of code points, [bytes] a sequence of octets, a raised
    exception an explicit outcome, and the untyped [spec] argument a value
    of a small universe of Python objects. *)

From Stdlib Require Import List String Ascii NArith ZArith Arith Bool Lia.
From Stdlib.Strings Require Import Byte.
From Stdlib Require Import Sorted Permutation DecimalString.
Import ListNotations.

Set Implicit Arguments.
Set Warnings "-register-all".

(** ** Python strings *)

Module Py.

(** A [str] is a list of Unicode code points. *)
Definition char := N.
Definition str := list char.

(** A literal of the source, written in ASCII. *)
Definition lit (s : string) : str :=
  map N_of_ascii (list_ascii_of_string s).

Definition NL : char := 10%N.
Definition SP : char := 32%N.

Definition char_eqb (a b : char) : bool := N.eqb a b.

Fixpoint str_eqb (a b : str) : bool :=
  match a, b with
  | [], [] => true
  | x :: a', y :: b' => char_eqb x y && str_eqb a' b'
  | _, _ => false
  end.

(** [str(n)] for a non-negative [int]. *)
Definition dec (n : nat) : str :=
  lit (NilEmpty.string_of_uint (Nat.to_uint n)).

(** The characters that [str.isspace], [str.strip] and the class [\s] of
    [re] (on a [str] pattern) treat as white space. *)
Definition is_space (c : char) : bool :=
  ((9 <=? c) && (c <=? 13) || (28 <=? c) && (c <=? 32)
   || (c =? 133) || (c =? 160) || (c =? 5760)
   || (8192 <=? c) && (c <=? 8202)
   || (c =? 8232) || (c =? 8233) || (c =? 8239) || (c =? 8287)
   || (c =? 12288))%N.

Fixpoint drop_while {A} (p : A -> bool) (s : list A) : list A :=
  match s with
  | [] => []
  | c :: t => if p c then drop_while p t else s
  end.

Fixpoint take_while {A} (p : A -> bool) (s : list A) : list A :=
  match s with
  | [] => []
  | c :: t => if p c then c :: take_while p t else []
  end.

Definition lstrip (s : str) : str := drop_while is_space s.
Definition rstrip (s : str) : str := rev (drop_while is_space (rev s)).

(** [s.strip()] *)
Definition strip (s : str) : str := rstrip (lstrip s).

Definition starts_with_space (s : str) : bool :=
  match s with
  | c :: _ => is_space c
  | [] => false
  end.

(** [re.sub(r'\s+', ' ', s)]: every maximal run of white space becomes one
    space. *)
Fixpoint normalize_ws (s : str) : str :=
  match s with
  | [] => []
  | c :: t =>
      if is_space c
      then if starts_with_space t then normalize_ws t else SP :: normalize_ws t
      else c :: normalize_ws t
  end.

(** [s.split('\n')] *)
Fixpoint split_lines (s : str) : list str :=
  match s with
  | [] => [[]]
  | c :: t =>
      if char_eqb c NL then [] :: split_lines t
      else match split_lines t with
           | l :: ls => (c :: l) :: ls
           | [] => [[c]]
           end
  end.

(** [sep.join(parts)] *)
Fixpoint join (sep : str) (parts : list str) : str :=
  match parts with
  | [] => []
  | [p] => p
  | p :: rest => p ++ sep ++ join sep rest
  end.

(** [s.count('\n')] *)
Definition count_newlines (s : str) : nat :=
  List.length (filter (fun c => char_eqb c NL) s).

(** [s[:n]], [s[n:]] and [s[a:b]] for non-negative indices; Python clamps
    them to the length, as [firstn] and [skipn] do. *)
Definition upto {A} (n : nat) (s : list A) : list A := firstn n s.
Definition from {A} (n : nat) (s : list A) : list A := skipn n s.
Definition slice {A} (a b : nat) (s : list A) : list A :=
  firstn (b - a) (skipn a s).

(** *** Exceptions *)

Inductive exn_class :=
  | TypeError | AttributeError | IndexError
  | UnicodeEncodeError | UnicodeDecodeError.

(** A raised exception: its class and [str(e)]. *)
Record exn := Exn { exn_type : exn_class; exn_str : str }.

Inductive exc (A : Type) : Type :=
  | Ok (a : A)
  | Raise (e : exn).
Arguments Ok {A} a.
Arguments Raise {A} e.

Definition bind {A B} (m : exc A) (k : A -> exc B) : exc B :=
  match m with
  | Ok a => k a
  | Raise e => Raise e
  end.

Declare Scope exc_scope.
Delimit Scope exc_scope with exc.
Notation "x <- m ;; k" := (bind m (fun x => k))
  (at level 61, m at next level, right associativity) : exc_scope.
Notation "' p <- m ;; k" := (bind m (fun p => k))
  (at level 61, p pattern, m at next level, right associativity) : exc_scope.
Open Scope exc_scope.

Definition fold_exc {A S} (step : S -> A -> exc S) : list A -> S -> exc S :=
  fix go l s :=
    match l with
    | [] => Ok s
    | x :: t => s' <- step s x ;; go t s'
    end.

(** *** Objects

    The [spec] argument is annotated [List] but nothing enforces it; these
    are the objects a caller can pass in its place or inside it. *)

Inductive value :=
  | PyNone
  | PyInt (z : Z)
  | PyStr (s : str)
  | PyList (l : list value).

(** [bool(v)] *)
Definition truthy (v : value) : bool :=
  match v with
  | PyNone => false
  | PyInt z => negb (Z.eqb z 0)
  | PyStr s => negb (Nat.eqb (List.length s) 0)
  | PyList l => negb (Nat.eqb (List.length l) 0)
  end.

(** [type(v).__name__] *)
Definition type_name (v : value) : str :=
  match v with
  | PyNone => lit "NoneType"
  | PyInt _ => lit "int"
  | PyStr _ => lit "str"
  | PyList _ => lit "list"
  end.

Definition raise {A} (c : exn_class) (msg : str) : exc A := Raise (Exn c msg).

(** [len(v)] *)
Definition py_len (v : value) : exc nat :=
  match v with
  | PyStr s => Ok (List.length s)
  | PyList l => Ok (List.length l)
  | _ => raise TypeError
           (lit "object of type '" ++ type_name v ++ lit "' has no len()")
  end.

(** [v[i]] for [i >= 0] *)
Definition py_getitem (v : value) (i : nat) : exc value :=
  match v with
  | PyStr s =>
      match nth_error s i with
      | Some c => Ok (PyStr [c])
      | None => raise IndexError (lit "string index out of range")
      end
  | PyList l =>
      match nth_error l i with
      | Some x => Ok x
      | None => raise IndexError (lit "list index out of range")
      end
  | _ => raise TypeError
           (lit "'" ++ type_name v ++ lit "' object is not subscriptable")
  end.

(** The elements [for x in v] visits. *)
Definition py_iter (v : value) : exc (list value) :=
  match v with
  | PyStr s => Ok (map (fun c => PyStr [c]) s)
  | PyList l => Ok l
  | _ => raise TypeError
           (lit "'" ++ type_name v ++ lit "' object is not iterable")
  end.

(** [v.strip()] *)
Definition py_strip (v : value) : exc str :=
  match v with
  | PyStr s => Ok (strip s)
  | _ => raise AttributeError
           (lit "'" ++ type_name v ++ lit "' object has no attribute 'strip'")
  end.

Definition is_str (v : value) : bool :=
  match v with PyStr _ => true | _ => false end.

(** What an f-string prints for an [Optional[str]]. *)
Definition format_optional (o : option str) : str :=
  match o with
  | Some s => s
  | None => lit "None"
  end.

Definition nonempty (s : str) : bool := negb (Nat.eqb (List.length s) 0).

End Py.

Import Py.
Open Scope exc_scope.

(** ** UTF-8, as [bytes(s, "utf8")] and [b.decode('utf8')] *)

Module Utf8.

Definition octet (n : N) : byte :=
  match Byte.of_N (n mod 256) with
  | Some b => b
  | None => x00
  end.

(** What the codec raises; the interpreter's message also names the
    offending character or byte and its position, which are left out. *)
Definition encode_error : exn :=
  Exn UnicodeEncodeError (lit "'utf-8' codec can't encode character: surrogates not allowed").

Definition decode_error : exn :=
  Exn UnicodeDecodeError (lit "'utf-8' codec can't decode byte: invalid start byte").

Definition encode_char (c : char) : exc (list byte) :=
  (if c <? 128 then Ok [octet c]
   else if c <? 2048 then Ok [octet (192 + c / 64); octet (128 + c mod 64)]
   else if c <? 65536 then
     if (55296 <=? c) && (c <=? 57343) then Raise encode_error
     else Ok [octet (224 + c / 4096); octet (128 + (c / 64) mod 64);
              octet (128 + c mod 64)]
   else if c <? 1114112 then
     Ok [octet (240 + c / 262144); octet (128 + (c / 4096) mod 64);
         octet (128 + (c / 64) mod 64); octet (128 + c mod 64)]
   else Raise encode_error)%N.

Fixpoint encode (s : str) : exc (list byte) :=
  match s with
  | [] => Ok []
  | c :: t =>
      bs <- encode_char c ;;
      rest <- encode t ;;
      Ok (bs ++ rest)
  end.

Definition is_cont (b : byte) : bool :=
  ((128 <=? Byte.to_N b) && (Byte.to_N b <? 192))%N.

Definition low6 (b : byte) : N := (Byte.to_N b mod 64)%N.

(** The strict decoder: shortest form only, no surrogates, nothing above
    U+10FFFF. *)
Fixpoint decode (bs : list byte) : exc str :=
  match bs with
  | [] => Ok []
  | b0 :: t =>
      let n := Byte.to_N b0 in
      (if n <? 128 then
         rest <- decode t ;; Ok (n :: rest)
       else if n <? 192 then Raise decode_error
       else if n <? 224 then
         match t with
         | b1 :: t1 =>
             let c := (n mod 32) * 64 + low6 b1 in
             if is_cont b1 && (128 <=? c)
             then rest <- decode t1 ;; Ok (c :: rest)
             else Raise decode_error
         | _ => Raise decode_error
         end
       else if n <? 240 then
         match t with
         | b1 :: b2 :: t2 =>
             let c := (n mod 16) * 4096 + low6 b1 * 64 + low6 b2 in
             if is_cont b1 && is_cont b2 && (2048 <=? c)
                && negb ((55296 <=? c) && (c <=? 57343))
             then rest <- decode t2 ;; Ok (c :: rest)
             else Raise decode_error
         | _ => Raise decode_error
         end
       else if n <? 248 then
         match t with
         | b1 :: b2 :: b3 :: t3 =>
             let c := (n mod 8) * 262144 + low6 b1 * 4096 + low6 b2 * 64
                      + low6 b3 in
             if is_cont b1 && is_cont b2 && is_cont b3
                && (65536 <=? c) && (c <? 1114112)
             then rest <- decode t3 ;; Ok (c :: rest)
             else Raise decode_error
         | _ => Raise decode_error
         end
       else Raise decode_error)%N
  end.

End Utf8.

(** ** The Tree Provider

    A node of the concrete syntax tree as py-tree-sitter exposes it: a kind
    tag, a byte span over the encoded source, and ordered children.  The
    parser itself is external; every operation below takes it as
    [parse]. *)

Module TreeSitter.

Inductive Node : Type :=
  mkNode { type : string; start_byte : nat; end_byte : nat;
           children : list Node }.

End TreeSitter.

Definition Node := TreeSitter.Node.

(** ** Data structures of [validation_treesitter.py] *)

Module LoopInfo.
Record t := make
  { type : str;            (* 'for', 'while', or 'do' *)
    header : str;
    byte_position : nat;
    line_number : nat }.
End LoopInfo.

Module FunctionInfo.
Record t := make
  { name : str;
    signature : str;
    byte_position : nat;
    line_number : nat;
    loops : list LoopInfo.t }.
End FunctionInfo.

Record CodeStructure := { functions : list FunctionInfo.t }.

Inductive point_type := function_point | loop_point.

Module InjectionPoint.
Record t := make
  { type : point_type;     (* 'function' or 'loop' *)
    byte_position : nat;
    line_number : nat;
    spec_index : nat;
    context : str }.
End InjectionPoint.

(** ** Lists: [list.sort] and a traversal that stops at the first raise *)

Section Sorting.
Variable A : Type.
Variable before : A -> A -> bool.

Fixpoint insert_by (x : A) (l : list A) : list A :=
  match l with
  | [] => [x]
  | y :: t => if before x y then x :: l else y :: insert_by x t
  end.

(** A stable sort, as [list.sort] is: of two elements with equal keys the
    one that came first stays first. *)
Definition sort_by (l : list A) : list A := fold_right insert_by [] l.

End Sorting.

(** [l.sort(key=key)] *)
Definition sort_key {A} (key : A -> nat) : list A -> list A :=
  sort_by (fun x y => key x <=? key y).

(** [l.sort(key=key, reverse=True)] *)
Definition sort_key_reverse {A} (key : A -> nat) : list A -> list A :=
  sort_by (fun x y => key y <=? key x).

Fixpoint map_exc {A B} (f : A -> exc B) (l : list A) : exc (list B) :=
  match l with
  | [] => Ok []
  | x :: t => y <- f x ;; ys <- map_exc f t ;; Ok (y :: ys)
  end.

(** ** Step 1: the Structure Extractor *)

Fixpoint _find_all_nodes_of_type (node : Node) (node_type : string)
  : list Node :=
  (if String.eqb (TreeSitter.type node) node_type then [node] else [])
  ++ flat_map (fun child => _find_all_nodes_of_type child node_type)
       (TreeSitter.children node).

(** [source_bytes[a:b].decode('utf8')] *)
Definition decode_span (source_bytes : list byte) (a b : nat) : exc str :=
  Utf8.decode (slice a b source_bytes).

Definition has_type (t : string) (n : Node) : bool :=
  String.eqb (TreeSitter.type n) t.

Definition _get_function_name (func_node : Node) (source_bytes : list byte)
  : exc str :=
  let identifiers :=
    flat_map (fun child =>
                if has_type "function_declarator" child
                then filter (has_type "identifier") (TreeSitter.children child)
                else [])
      (TreeSitter.children func_node) in
  match identifiers with
  | sub_child :: _ =>
      decode_span source_bytes (TreeSitter.start_byte sub_child)
        (TreeSitter.end_byte sub_child)
  | [] => Ok (lit "unknown")
  end.

Definition _get_function_signature (func_node : Node)
  (source_bytes : list byte) : exc str :=
  match find (has_type "compound_statement") (TreeSitter.children func_node) with
  | Some child =>
      sig_text <- decode_span source_bytes (TreeSitter.start_byte func_node)
                    (TreeSitter.start_byte child) ;;
      Ok (normalize_ws (strip sig_text))
  | None =>
      whole <- decode_span source_bytes (TreeSitter.start_byte func_node)
                 (TreeSitter.end_byte func_node) ;;
      Ok (strip whole)
  end.

Definition statement_types : list string :=
  ["expression_statement"; "return_statement"; "for_statement";
   "while_statement"; "if_statement"; "do_statement"]%string.

(** The scan of [_get_loop_header] over the children: a compound statement
    ends it, any other statement overwrites the candidate. *)
Fixpoint loop_body_start (cs : list Node) (body_start : option nat)
  : option nat :=
  match cs with
  | [] => body_start
  | child :: rest =>
      if has_type "compound_statement" child
      then Some (TreeSitter.start_byte child)
      else if existsb (String.eqb (TreeSitter.type child)) statement_types
      then loop_body_start rest (Some (TreeSitter.start_byte child))
      else loop_body_start rest body_start
  end.

Definition _get_loop_header (loop_node : Node) (source_bytes : list byte)
  (loop_type : str) : exc str :=
  let stop :=
    match loop_body_start (TreeSitter.children loop_node) None with
    | Some (S p) => S p                      (* [if body_start:] *)
    | _ => TreeSitter.end_byte loop_node     (* [None], or the falsy [0] *)
    end in
  text <- decode_span source_bytes (TreeSitter.start_byte loop_node) stop ;;
  Ok (normalize_ws (strip text)).

Definition _extract_loop_info (loop_node : Node) (source_bytes : list byte)
  (source_str : str) (loop_type : string) : exc LoopInfo.t :=
  let simple_type :=
    if String.eqb loop_type "for_statement" then lit "for"
    else if String.eqb loop_type "while_statement" then lit "while"
    else lit "do" in
  header <- _get_loop_header loop_node source_bytes simple_type ;;
  let byte_pos := TreeSitter.start_byte loop_node in
  let line_num := count_newlines (upto byte_pos source_str) + 1 in
  Ok (LoopInfo.make simple_type header byte_pos line_num).

Definition loop_types : list string :=
  ["for_statement"; "while_statement"; "do_statement"]%string.

Definition _extract_loops_from_body (body_node : Node)
  (source_bytes : list byte) (source_str : str) : exc (list LoopInfo.t) :=
  loops <- map_exc (fun '(loop_node, loop_type) =>
                      _extract_loop_info loop_node source_bytes source_str
                        loop_type)
             (flat_map (fun loop_type =>
                          map (fun n => (n, loop_type))
                            (_find_all_nodes_of_type body_node loop_type))
                loop_types) ;;
  Ok (sort_key LoopInfo.byte_position loops).

Definition _extract_function_info (func_node : Node)
  (source_bytes : list byte) (source_str : str) : exc FunctionInfo.t :=
  name <- _get_function_name func_node source_bytes ;;
  signature <- _get_function_signature func_node source_bytes ;;
  let byte_pos := TreeSitter.start_byte func_node in
  let line_num := count_newlines (upto byte_pos source_str) + 1 in
  loops <- match find (has_type "compound_statement")
                   (TreeSitter.children func_node) with
           | Some body => _extract_loops_from_body body source_bytes source_str
           | None => Ok []
           end ;;
  Ok (FunctionInfo.make name signature byte_pos line_num loops).

Section Pipeline.

Variable parse : list byte -> Node.

Definition extract_structure (c_code : str) : exc CodeStructure :=
  source_bytes <- Utf8.encode c_code ;;
  let root_node := parse source_bytes in
  functions <- map_exc (fun node =>
                          _extract_function_info node source_bytes c_code)
                 (_find_all_nodes_of_type root_node "function_definition") ;;
  Ok {| functions := functions |}.


(** ** Step 2: the Structure Comparator *)

Definition quoted (s : str) : str := lit "'" ++ s ++ lit "'".

(** The two-line tail of the signature and header diagnostics. *)
Definition skeleton_completion (a b : str) : str :=
  [NL] ++ lit "  Skeleton: " ++ a ++ [NL] ++ lit "  Completion: " ++ b.

(** The inner loop of [_compare_structures]: [Some msg] is its early
    [return False, msg]. *)
Fixpoint compare_loops (fname : str) (j : nat)
  (skel_loops comp_loops : list LoopInfo.t) : option str :=
  match skel_loops, comp_loops with
  | skel_loop :: skel_rest, comp_loop :: comp_rest =>
      if negb (str_eqb (LoopInfo.type skel_loop) (LoopInfo.type comp_loop))
      then Some (lit "Function " ++ quoted fname ++ lit " loop " ++ dec j
                 ++ lit " type mismatch: " ++ quoted (LoopInfo.type skel_loop)
                 ++ lit " vs " ++ quoted (LoopInfo.type comp_loop))
      else if negb (str_eqb (LoopInfo.header skel_loop)
                      (LoopInfo.header comp_loop))
      then Some (lit "Function " ++ quoted fname ++ lit " loop " ++ dec j
                 ++ lit " header mismatch:"
                 ++ skeleton_completion (LoopInfo.header skel_loop)
                      (LoopInfo.header comp_loop))
      else compare_loops fname (S j) skel_rest comp_rest
  | _, _ => None
  end.

(** The outer loop, over [enumerate(zip(skel.functions, comp.functions))]. *)
Fixpoint compare_functions (i : nat)
  (skel_funcs comp_funcs : list FunctionInfo.t) : option str :=
  match skel_funcs, comp_funcs with
  | skel_func :: skel_rest, comp_func :: comp_rest =>
      let fname := FunctionInfo.name skel_func in
      if negb (str_eqb fname (FunctionInfo.name comp_func))
      then Some (lit "Function " ++ dec i ++ lit " name mismatch: "
                 ++ quoted fname ++ lit " vs "
                 ++ quoted (FunctionInfo.name comp_func))
      else if negb (str_eqb (FunctionInfo.signature skel_func)
                      (FunctionInfo.signature comp_func))
      then Some (lit "Function " ++ quoted fname ++ lit " signature mismatch:"
                 ++ skeleton_completion (FunctionInfo.signature skel_func)
                      (FunctionInfo.signature comp_func))
      else
        let n := List.length (FunctionInfo.loops skel_func) in
        let m := List.length (FunctionInfo.loops comp_func) in
        if negb (n =? m)
        then Some (lit "Function " ++ quoted fname
                   ++ lit " loop count mismatch: skeleton has " ++ dec n
                   ++ lit ", completion has " ++ dec m)
        else
          match compare_loops fname 0 (FunctionInfo.loops skel_func)
                  (FunctionInfo.loops comp_func) with
          | Some msg => Some msg
          | None => compare_functions (S i) skel_rest comp_rest
          end
  | _, _ => None
  end.

Definition _compare_structures (skel comp : CodeStructure)
  : bool * option str :=
  let n := List.length (functions skel) in
  let m := List.length (functions comp) in
  if negb (n =? m)
  then (false, Some (lit "Function count mismatch: skeleton has " ++ dec n
                     ++ lit ", completion has " ++ dec m))
  else
    match compare_functions 0 (functions skel) (functions comp) with
    | Some msg => (false, Some msg)
    | None => (true, None)
    end.

(** ** Step 3: the Injection Planner *)

(** The two variables the loops of [find_injection_points] update:
    [injection_points] and [spec_index]. *)
Definition planner_state := (list InjectionPoint.t * nat)%type.

Definition visit_function (spec : value) (func : FunctionInfo.t)
  (st : planner_state) : exc planner_state :=
  let '(injection_points, spec_index) := st in
  n <- py_len spec ;;
  if spec_index <? n
  then Ok (injection_points
           ++ [InjectionPoint.make function_point
                 (FunctionInfo.byte_position func)
                 (FunctionInfo.line_number func) spec_index
                 (lit "function " ++ quoted (FunctionInfo.name func))],
           spec_index + 1)
  else Ok st.

Definition visit_loop (spec : value) (func : FunctionInfo.t)
  (loop_idx : nat) (loop : LoopInfo.t) (st : planner_state)
  : exc planner_state :=
  let '(injection_points, spec_index) := st in
  n <- py_len spec ;;
  if spec_index <? n
  then Ok (injection_points
           ++ [InjectionPoint.make loop_point
                 (LoopInfo.byte_position loop)
                 (LoopInfo.line_number loop) spec_index
                 (lit "loop " ++ dec loop_idx ++ lit " in function "
                  ++ quoted (FunctionInfo.name func) ++ lit " ("
                  ++ LoopInfo.type loop ++ lit " loop)")],
           spec_index + 1)
  else Ok st.

Fixpoint visit_loops (spec : value) (func : FunctionInfo.t) (loop_idx : nat)
  (loops : list LoopInfo.t) (st : planner_state) : exc planner_state :=
  match loops with
  | [] => Ok st
  | loop :: rest =>
      st' <- visit_loop spec func loop_idx loop st ;;
      visit_loops spec func (S loop_idx) rest st'
  end.

Fixpoint visit_functions (spec : value) (funcs : list FunctionInfo.t)
  (st : planner_state) : exc planner_state :=
  match funcs with
  | [] => Ok st
  | func :: rest =>
      st1 <- visit_function spec func st ;;
      st2 <- visit_loops spec func 0 (FunctionInfo.loops func) st1 ;;
      visit_functions spec rest st2
  end.

(** [find_injection_points] from the extracted structure on: the walk from
    [spec_index = 1], then the reverse sort. *)
Definition plan_injection_points (structure : CodeStructure) (spec : value)
  : exc (list InjectionPoint.t) :=
  '(injection_points, _) <- visit_functions spec (functions structure)
                              ([], 1) ;;
  Ok (sort_key_reverse InjectionPoint.byte_position injection_points).

Definition find_injection_points (c_code : str) (spec : value)
  : exc (list InjectionPoint.t) :=
  structure <- extract_structure c_code ;;
  plan_injection_points structure spec.

(** ** The Text Splicer *)

Fixpoint strip_prefix (prefix s : str) : option str :=
  match prefix, s with
  | [], _ => Some s
  | p :: prefix', c :: s' =>
      if char_eqb p c then strip_prefix prefix' s' else None
  | _ :: _, [] => None
  end.

Definition is_open_delim (c : char) : bool := ((c =? 60) || (c =? 34))%N.
Definition is_close_delim (c : char) : bool := ((c =? 62) || (c =? 34))%N.

(** [re.match(include_pattern, line)] succeeds.  Each repetition of the
    pattern is followed by a character outside its class, so the greedy
    match is the only candidate: white space, [#], white space, [include],
    at least one white space, an opening [<] or double quote, at least one
    character that is neither [>] nor a double quote, then one that is. *)
Definition matches_include (line : str) : bool :=
  match lstrip line with
  | hash :: after_hash =>
      (hash =? 35)%N
      && match strip_prefix (lit "include") (lstrip after_hash) with
         | Some after_word =>
             starts_with_space after_word
             && match lstrip after_word with
                | opener :: path =>
                    is_open_delim opener
                    && nonempty (take_while (fun c => negb (is_close_delim c)) path)
                    && nonempty (drop_while (fun c => negb (is_close_delim c)) path)
                | [] => false
                end
         | None => false
         end
  | [] => false
  end.

(** The loop over [enumerate(lines)] that keeps the index of the last
    matching line; [-1] when there is none. *)
Fixpoint scan_includes (i : Z) (lines : list str) (last_include_line : Z)
  : Z :=
  match lines with
  | [] => last_include_line
  | line :: rest =>
      scan_includes (i + 1) rest
        (if matches_include line then i else last_include_line)
  end.

(** Steps 1 and 2 of [inject_acsl_specs_treesitter]: header and body. *)
Definition split_header_body (c_code : str) : str * str :=
  let lines := split_lines c_code in
  let last_include_line := scan_includes 0 lines (-1) in
  if (0 <=? last_include_line)%Z
  then (join [NL] (upto (Z.to_nat (last_include_line + 1)) lines),
        join [NL] (from (Z.to_nat (last_include_line + 1)) lines))
  else ([], c_code).

(** The generator [pred.strip() for pred in predicates if pred and
    pred.strip()]. *)
Fixpoint stripped_predicates (preds : list value) : exc (list str) :=
  match preds with
  | [] => Ok []
  | pred :: rest =>
      if truthy pred
      then text <- py_strip pred ;;
           kept <- stripped_predicates rest ;;
           Ok (if nonempty text then text :: kept else kept)
      else stripped_predicates rest
  end.

(** Step 3: the predicates block. *)
Definition predicates_text_of (spec : value) : exc str :=
  first <- py_getitem spec 0 ;;
  let predicates := if truthy first then first else PyList [] in
  if truthy predicates
  then preds <- py_iter predicates ;;
       kept <- stripped_predicates preds ;;
       Ok (join [NL; NL] kept)
  else Ok [].

(** One turn of the loop of step 5. *)
Definition splice_point (spec : value) (result : str)
  (point : InjectionPoint.t) : exc str :=
  spec_text <- py_getitem spec (InjectionPoint.spec_index point) ;;
  if truthy spec_text
  then text <- py_strip spec_text ;;
       if nonempty text
       then Ok (upto (InjectionPoint.byte_position point) result
                ++ text ++ [NL]
                ++ from (InjectionPoint.byte_position point) result)
       else Ok result
  else Ok result.

Definition splice_points (spec : value) (points : list InjectionPoint.t)
  (body : str) : exc str :=
  fold_exc (splice_point spec) points body.

(** The length of the match of [\n\s*\n\s*\n+] at the head of a white-space
    run that starts with a newline: up to the last newline of the run. *)
Definition blank_match_length (run : str) : nat :=
  List.length (drop_while (fun c => negb (char_eqb c NL)) (rev run)).

(** [re.sub(r'\n\s*\n\s*\n+', '\n\n', s)], scanning left to right; [skip]
    counts the characters of the current match still to be dropped. *)
Fixpoint collapse_blank_lines (skip : nat) (s : str) : str :=
  match s with
  | [] => []
  | c :: t =>
      match skip with
      | S k => collapse_blank_lines k t
      | O =>
          let run := take_while is_space s in
          if char_eqb c NL && (3 <=? count_newlines run)
          then NL :: NL :: collapse_blank_lines (blank_match_length run - 1) t
          else c :: collapse_blank_lines 0 t
      end
  end.

Definition inject_acsl_specs_treesitter (spec : value) (c_code : str)
  : exc str :=
  if negb (truthy spec) then Ok c_code
  else
    n <- py_len spec ;;
    if n <=? 1 then Ok c_code
    else
      let '(header, body) := split_header_body c_code in
      predicates_text <- predicates_text_of spec ;;
      injection_points <- find_injection_points body spec ;;
      result <- splice_points spec injection_points body ;;
      let final_parts :=
        (if nonempty header then [header] else [])
        ++ (if nonempty predicates_text then [predicates_text] else [])
        ++ [result] in
      Ok (strip (collapse_blank_lines 0 (join [NL; NL] final_parts))).

(** ** Step 4: the Orchestrator *)

Definition validate_completion_matches_skeleton (skeleton completion : str)
  : exc (bool * option str) :=
  skel_structure <- extract_structure skeleton ;;
  comp_structure <- extract_structure completion ;;
  Ok (_compare_structures skel_structure comp_structure).

(** The triple [(success, injected_code, error_message)]; the extraction
    of step 1 is outside the [try], so what it raises escapes. *)
Definition validate_and_inject (skeleton completion : str) (spec : value)
  : exc (bool * option str * option str) :=
  '(valid, error) <- validate_completion_matches_skeleton skeleton completion ;;
  if negb valid
  then Ok (false, None, Some (lit "Validation failed: " ++ format_optional error))
  else
    match inject_acsl_specs_treesitter spec completion with
    | Ok injected => Ok (true, Some injected, None)
    | Raise e => Ok (false, None, Some (lit "Injection failed: " ++ exn_str e))
    end.

End Pipeline.

(** ** [validate_spec_structure] of [injection.py] *)

Definition class_repr (v : value) : str :=
  lit "<class '" ++ type_name v ++ lit "'>".

(** The first element of [items], from index [i] on, that is not a [str]. *)
Fixpoint first_non_str (i : nat) (items : list value)
  : option (nat * value) :=
  match items with
  | [] => None
  | item :: rest =>
      if is_str item then first_non_str (S i) rest else Some (i, item)
  end.

Definition validate_spec_structure (spec : value) : bool * option str :=
  match spec with
  | PyList items =>
      match items with
      | [] => (false, Some (lit "spec cannot be empty - must have at least predicates list (can be empty [])"))
      | PyList preds :: rest =>
          match first_non_str 0 preds with
          | Some (i, pred) =>
              (false, Some (lit "spec[0][" ++ dec i
                            ++ lit "] (predicate) must be a string, got "
                            ++ class_repr pred))
          | None =>
              match first_non_str 1 rest with
              | Some (i, item_spec) =>
                  (false, Some (lit "spec[" ++ dec i
                                ++ lit "] (function/loop spec) must be a string, got "
                                ++ class_repr item_spec))
              | None => (true, None)
              end
          end
      | _ :: _ => (false, Some (lit "spec[0] (predicates) must be a list"))
      end
  | _ => (false, Some (lit "spec must be a list"))
  end.

(** ** Reference notions, in the words of the specification

    These are not translated from the code: they say what the
    specification means by a slot, by the first divergence of two
    structures, by a well-formed fragment sequence and by a line number,
    so that the code can be compared with them. *)

(** The slots of a structure in traversal order, numbered from [idx]: for
    each function one slot for its specification, immediately followed by
    one slot per loop of that function. *)
Fixpoint loop_slots (func : FunctionInfo.t) (loop_idx : nat)
  (loops : list LoopInfo.t) (idx : nat) : list InjectionPoint.t :=
  match loops with
  | [] => []
  | loop :: rest =>
      InjectionPoint.make loop_point (LoopInfo.byte_position loop)
        (LoopInfo.line_number loop) idx
        (lit "loop " ++ dec loop_idx ++ lit " in function "
         ++ quoted (FunctionInfo.name func) ++ lit " ("
         ++ LoopInfo.type loop ++ lit " loop)")
      :: loop_slots func (S loop_idx) rest (S idx)
  end.

Fixpoint function_slots (funcs : list FunctionInfo.t) (idx : nat)
  : list InjectionPoint.t :=
  match funcs with
  | [] => []
  | func :: rest =>
      InjectionPoint.make function_point (FunctionInfo.byte_position func)
        (FunctionInfo.line_number func) idx
        (lit "function " ++ quoted (FunctionInfo.name func))
      :: loop_slots func 0 (FunctionInfo.loops func) (S idx)
      ++ function_slots rest (S idx + List.length (FunctionInfo.loops func))
  end.

(** Slot [k] (from 0) is served by fragment [k + 1]. *)
Definition slots (structure : CodeStructure) : list InjectionPoint.t :=
  function_slots (functions structure) 1.

(** What a mismatch diagnostic reports: the field and both values. *)
Inductive divergence :=
  | FunctionCount (n m : nat)
  | FunctionName (i : nat) (a b : str)
  | Signature (fname a b : str)
  | LoopCount (fname : str) (n m : nat)
  | LoopType (fname : str) (j : nat) (a b : str)
  | LoopHeader (fname : str) (j : nat) (a b : str).

Definition loops_agree (a b : LoopInfo.t) : Prop :=
  LoopInfo.type a = LoopInfo.type b /\ LoopInfo.header a = LoopInfo.header b.

Definition functions_agree (f g : FunctionInfo.t) : Prop :=
  FunctionInfo.name f = FunctionInfo.name g
  /\ FunctionInfo.signature f = FunctionInfo.signature g
  /\ Forall2 loops_agree (FunctionInfo.loops f) (FunctionInfo.loops g).

(** Structural equality of section 3. *)
Definition same_shape (skel comp : CodeStructure) : Prop :=
  Forall2 functions_agree (functions skel) (functions comp).

(** Functions [0 .. i-1] agree in every field, and [f], [g] are the
    functions at index [i]. *)
Definition reaches_function (skel comp : CodeStructure) (i : nat)
  (f g : FunctionInfo.t) : Prop :=
  List.length (functions skel) = List.length (functions comp)
  /\ Forall2 functions_agree (firstn i (functions skel))
       (firstn i (functions comp))
  /\ nth_error (functions skel) i = Some f
  /\ nth_error (functions comp) i = Some g.

(** Within [f] and [g], whose names, signatures and loop counts agree,
    loops [0 .. j-1] agree and [a], [b] are the loops at index [j]. *)
Definition reaches_loop (f g : FunctionInfo.t) (j : nat) (a b : LoopInfo.t)
  : Prop :=
  FunctionInfo.name f = FunctionInfo.name g
  /\ FunctionInfo.signature f = FunctionInfo.signature g
  /\ List.length (FunctionInfo.loops f) = List.length (FunctionInfo.loops g)
  /\ Forall2 loops_agree (firstn j (FunctionInfo.loops f))
       (firstn j (FunctionInfo.loops g))
  /\ nth_error (FunctionInfo.loops f) j = Some a
  /\ nth_error (FunctionInfo.loops g) j = Some b.

(** Loops [la], [lb], both at index [j] of a function called [fname],
    differ in kind, or agree in kind and differ in header. *)
Definition loop_divergence (fname : str) (j : nat) (la lb : LoopInfo.t)
  (d : divergence) : Prop :=
  match d with
  | LoopType fname' j' a b =>
      fname' = fname /\ j' = j
      /\ a = LoopInfo.type la /\ b = LoopInfo.type lb /\ a <> b
  | LoopHeader fname' j' a b =>
      fname' = fname /\ j' = j
      /\ LoopInfo.type la = LoopInfo.type lb
      /\ a = LoopInfo.header la /\ b = LoopInfo.header lb /\ a <> b
  | _ => False
  end.

(** Functions [f], [g], both at index [i], differ first in name, else in
    signature, else in loop count, else at the first loop that differs. *)
Definition function_divergence (i : nat) (f g : FunctionInfo.t)
  (d : divergence) : Prop :=
  match d with
  | FunctionCount _ _ => False
  | FunctionName i' a b =>
      i' = i /\ a = FunctionInfo.name f /\ b = FunctionInfo.name g /\ a <> b
  | Signature fname a b =>
      fname = FunctionInfo.name f
      /\ FunctionInfo.name f = FunctionInfo.name g
      /\ a = FunctionInfo.signature f /\ b = FunctionInfo.signature g
      /\ a <> b
  | LoopCount fname n m =>
      fname = FunctionInfo.name f
      /\ FunctionInfo.name f = FunctionInfo.name g
      /\ FunctionInfo.signature f = FunctionInfo.signature g
      /\ n = List.length (FunctionInfo.loops f)
      /\ m = List.length (FunctionInfo.loops g) /\ n <> m
  | LoopType _ j _ _ | LoopHeader _ j _ _ =>
      exists la lb, reaches_loop f g j la lb
        /\ loop_divergence (FunctionInfo.name f) j la lb d
  end.

(** [d] is the first divergence in the order function count, then per
    function name, signature, loop count, then per loop kind, header. *)
Definition first_divergence (skel comp : CodeStructure) (d : divergence)
  : Prop :=
  match d with
  | FunctionCount n m =>
      n = List.length (functions skel) /\ m = List.length (functions comp)
      /\ n <> m
  | _ =>
      exists i f g, reaches_function skel comp i f g
        /\ function_divergence i f g d
  end.

(** The diagnostic that reports [d]. *)
Definition describe (d : divergence) : str :=
  match d with
  | FunctionCount n m =>
      lit "Function count mismatch: skeleton has " ++ dec n
      ++ lit ", completion has " ++ dec m
  | FunctionName i a b =>
      lit "Function " ++ dec i ++ lit " name mismatch: " ++ quoted a
      ++ lit " vs " ++ quoted b
  | Signature fname a b =>
      lit "Function " ++ quoted fname ++ lit " signature mismatch:"
      ++ skeleton_completion a b
  | LoopCount fname n m =>
      lit "Function " ++ quoted fname
      ++ lit " loop count mismatch: skeleton has " ++ dec n
      ++ lit ", completion has " ++ dec m
  | LoopType fname j a b =>
      lit "Function " ++ quoted fname ++ lit " loop " ++ dec j
      ++ lit " type mismatch: " ++ quoted a ++ lit " vs " ++ quoted b
  | LoopHeader fname j a b =>
      lit "Function " ++ quoted fname ++ lit " loop " ++ dec j
      ++ lit " header mismatch:" ++ skeleton_completion a b
  end.

(** The name of the compared field and the two observed values, as
    text. *)
Definition field_of (d : divergence) : str :=
  match d with
  | FunctionCount _ _ => lit "Function count"
  | FunctionName _ _ _ => lit "name"
  | Signature _ _ _ => lit "signature"
  | LoopCount _ _ _ => lit "loop count"
  | LoopType _ _ _ _ => lit "type"
  | LoopHeader _ _ _ _ => lit "header"
  end.

Definition observed (d : divergence) : str * str :=
  match d with
  | FunctionCount n m | LoopCount _ n m => (dec n, dec m)
  | FunctionName _ a b | Signature _ a b
  | LoopType _ _ a b | LoopHeader _ _ a b => (a, b)
  end.

(** [sub] occurs in [s]. *)
Definition occurs_in (sub s : str) : Prop :=
  exists before after, s = before ++ sub ++ after.

(** A fragment sequence as section 3 describes it: a sequence whose first
    element is a sequence of strings and whose later elements are
    strings. *)
Definition well_formed_spec (spec : value) : Prop :=
  exists preds rest,
    spec = PyList (PyList preds :: rest)
    /\ Forall (fun v => is_str v = true) preds
    /\ Forall (fun v => is_str v = true) rest.

(** The number of newline characters of the source that precede byte
    offset [pos], plus one. *)
Definition line_of_byte (source_bytes : list byte) (pos : nat) : nat :=
  count_occ Byte.byte_eq_dec (firstn pos source_bytes) "010"%byte + 1.

(** The header zone as section 4.4 words it: the maximal leading run of
    include-style lines; the body zone is what follows. *)
Definition leading_include_split (c_code : str) : str * str :=
  let lines := split_lines c_code in
  (join [NL] (take_while matches_include lines),
   join [NL] (drop_while matches_include lines)).

(** A function definition none of whose direct [function_declarator]
    children has an [identifier] child. *)
Definition no_direct_name (func_node : Node) : Prop :=
  forall child,
    In child (TreeSitter.children func_node) ->
    has_type "function_declarator" child = true ->
    forall sub_child,
      In sub_child (TreeSitter.children child) ->
      has_type "identifier" sub_child = false.

(** Orderings of a sequence of injection points by byte position. *)
Definition descending (points : list InjectionPoint.t) : Prop :=
  StronglySorted
    (fun p q => InjectionPoint.byte_position q
                <= InjectionPoint.byte_position p) points.

Definition strictly_descending (points : list InjectionPoint.t) : Prop :=
  StronglySorted
    (fun p q => InjectionPoint.byte_position q
                < InjectionPoint.byte_position p) points.

(** ** Sample sources and their syntax trees

    The trees below are the ones tree-sitter-c builds for the sample
    texts, with the byte spans of their UTF-8 encoding.  [parse] answers
    with them on those texts and with a bare [translation_unit] on any
    other. *)

Module Samples.

Import TreeSitter.

Definition leaf (t : string) (a b : nat) : Node := mkNode t a b [].

(** [type name()] from byte [a]: the type takes [w] bytes, one space, a
    one-letter name, the parentheses. *)
Definition declarator (a : nat) : Node :=
  mkNode "function_declarator" a (a + 3)
    [leaf "identifier" a (a + 1);
     mkNode "parameter_list" (a + 1) (a + 3)
       [leaf "(" (a + 1) (a + 2); leaf ")" (a + 2) (a + 3)]].

Definition block (a b : nat) (items : list Node) : Node :=
  mkNode "compound_statement" a b
    ([leaf "{" a (a + 1)] ++ items ++ [leaf "}" (b - 1) b]).

(** [int f(){}] *)
Definition plain_text : str := lit "int f(){}".
Definition plain_tree : Node :=
  mkNode "translation_unit" 0 9
    [mkNode "function_definition" 0 9
       [leaf "primitive_type" 0 3; declarator 4; block 7 9 []]].

(** [int *f(){}] and [int *g(){}]: the declarator sits under a pointer
    declarator. *)
Definition pointer_function (a : nat) : Node :=
  mkNode "function_definition" a (a + 11)
    [leaf "primitive_type" a (a + 3);
     mkNode "pointer_declarator" (a + 4) (a + 8)
       [leaf "*" (a + 4) (a + 5); declarator (a + 5)];
     block (a + 8) (a + 10) []].

Definition pointer_f_text : str := lit "int *f(){}".
Definition pointer_g_text : str := lit "int *g(){}".
Definition pointer_tree : Node :=
  mkNode "translation_unit" 0 10 [pointer_function 0].

(** [void f(){void g(){for(;;){}}}]: a function definition nested in
    another one, with a loop inside. *)
Definition nested_text : str := lit "void f(){void g(){for(;;){}}}".
Definition nested_loop : Node :=
  mkNode "for_statement" 18 27
    [leaf "for" 18 21; leaf "(" 21 22; leaf ";" 22 23; leaf ";" 23 24;
     leaf ")" 24 25; block 25 27 []].
Definition nested_inner : Node :=
  mkNode "function_definition" 9 28
    [leaf "primitive_type" 9 13; declarator 14; block 17 28 [nested_loop]].
Definition nested_tree : Node :=
  mkNode "translation_unit" 0 29
    [mkNode "function_definition" 0 29
       [leaf "primitive_type" 0 4; declarator 5; block 8 29 [nested_inner]]].

(** A comment of four two-byte letters (U+00E9), then [int], a newline
    and [f(){}]: the function starts at character 8 and at byte 12. *)
Definition accented_text : str :=
  lit "/*" ++ [233; 233; 233; 233]%N ++ lit "*/int" ++ [NL] ++ lit "f(){}".
Definition accented_tree : Node :=
  mkNode "translation_unit" 0 21
    [leaf "comment" 0 12;
     mkNode "function_definition" 12 21
       [leaf "primitive_type" 12 15; declarator 16; block 19 21 []]].

(** What the extractor records for the sample texts. *)
Definition plain_structure : CodeStructure :=
  {| functions := [FunctionInfo.make (lit "f") (lit "int f()") 0 1 []] |}.

Definition pointer_f_info : FunctionInfo.t :=
  FunctionInfo.make (lit "unknown") (lit "int *f()") 0 1 [].
Definition pointer_g_info : FunctionInfo.t :=
  FunctionInfo.make (lit "unknown") (lit "int *g()") 0 1 [].

Definition nested_loop_info : LoopInfo.t :=
  LoopInfo.make (lit "for") (lit "for(;;)") 18 1.
Definition nested_structure : CodeStructure :=
  {| functions :=
       [FunctionInfo.make (lit "f") (lit "void f()") 0 1 [nested_loop_info];
        FunctionInfo.make (lit "g") (lit "void g()") 9 1 [nested_loop_info]]
  |}.

(** Fragment sequences. *)
Definition one_fragment : value :=
  PyList [PyList []; PyStr (lit "/*@ ensures x; */")].

Definition blank_fragment : value :=
  PyList [PyList []; PyStr (lit "  ")].

Definition four_fragments : value :=
  PyList [PyList []; PyStr (lit "/*A*/"); PyStr (lit "/*B*/");
          PyStr (lit "/*C*/"); PyStr (lit "/*D*/")].

(** Not a sequence of strings in first place. *)
Definition number_for_predicates : value :=
  PyList [PyInt 0; PyStr (lit "/*@ ensures x; */")].

(** Not a string in second place. *)
Definition number_for_fragment : value :=
  PyList [PyList []; PyInt 0].

(** An include line after a line of code, and one at the top. *)
Definition include_after_code : str :=
  lit "int x;" ++ [NL] ++ lit "#include <a.h>" ++ [NL] ++ lit "int y;".
Definition include_on_top : str :=
  lit "#include <a.h>" ++ [NL] ++ lit "int y;".

Definition bytes_of (s : str) : list byte :=
  match Utf8.encode s with
  | Ok bs => bs
  | Raise _ => []
  end.

Fixpoint bytes_eqb (a b : list byte) : bool :=
  match a, b with
  | [], [] => true
  | x :: a', y :: b' => Byte.eqb x y && bytes_eqb a' b'
  | _, _ => false
  end.

Definition parse (source_bytes : list byte) : Node :=
  if bytes_eqb source_bytes (bytes_of plain_text) then plain_tree
  else if bytes_eqb source_bytes (bytes_of pointer_f_text) then pointer_tree
  else if bytes_eqb source_bytes (bytes_of pointer_g_text) then pointer_tree
  else if bytes_eqb source_bytes (bytes_of nested_text) then nested_tree
  else if bytes_eqb source_bytes (bytes_of accented_text) then accented_tree
  else mkNode "translation_unit" 0 (List.length source_bytes) [].

End Samples.

(** ** [CodeStructure.to_dict] *)

(** The dictionary of one function: the keys ['name'], ['signature'],
    ['loop_count'], ['loop_types'] and ['loop_headers']. *)
Module FunctionDict.
Record t := make
  { name : str;
    signature : str;
    loop_count : nat;
    loop_types : list str;
    loop_headers : list str }.
End FunctionDict.

(** The dictionary of a structure: ['function_count'] and
    ['functions']. *)
Module StructureDict.
Record t := make
  { function_count : nat;
    functions : list FunctionDict.t }.
End StructureDict.

Definition to_dict (self : CodeStructure) : StructureDict.t :=
  StructureDict.make (List.length (functions self))
    (map (fun f =>
            FunctionDict.make (FunctionInfo.name f) (FunctionInfo.signature f)
              (List.length (FunctionInfo.loops f))
              (map LoopInfo.type (FunctionInfo.loops f))
              (map LoopInfo.header (FunctionInfo.loops f)))
       (functions self)).

(** ** The helpers of [injection.py] *)

Definition OPEN_BRACE : char := 123%N.
Definition CLOSE_BRACE : char := 125%N.
Definition OPEN_PAREN : char := 40%N.

(** The loop of [_find_function_bounds]; [rest] is [c_code[pos:]], so that
    [pos < len(c_code)] holds exactly when [rest] is not empty.  The result
    is the final [pos]. *)
Fixpoint scan_braces (rest : str) (brace_count pos : nat) : nat :=
  match rest with
  | [] => pos
  | c :: t =>
      match brace_count with
      | O => pos
      | S _ =>
          if char_eqb c OPEN_BRACE
          then scan_braces t (brace_count + 1) (pos + 1)
          else if char_eqb c CLOSE_BRACE
          then scan_braces t (brace_count - 1) (pos + 1)
          else scan_braces t brace_count (pos + 1)
      end
  end.

Definition _find_function_bounds (c_code : str) (function_start : nat)
  : nat * nat :=
  (function_start,
   scan_braces (from (function_start + 1) c_code) 1 (function_start + 1) - 1).

Section WordCharacters.

(** The class [\w] of [re] on a [str] pattern: the alphanumeric characters
    of the Unicode database and the underscore.  The database is the
    interpreter's. *)
Variable is_word : char -> bool.

(** [\b] between the characters [prev] and [next], either of which may be
    missing at an end of the string. *)
Definition word_boundary (prev next : option char) : bool :=
  xorb (match prev with Some c => is_word c | None => false end)
       (match next with Some c => is_word c | None => false end).

(** The length of the match of [\bkeyword\s*\(] at the head of [s], which
    [prev] precedes: the keyword, the white space and the parenthesis. *)
Definition keyword_match_length (keyword : str) (prev : option char)
  (s : str) : option nat :=
  if word_boundary prev (hd_error s)
  then match strip_prefix keyword s with
       | Some after_keyword =>
           match lstrip after_keyword with
           | c :: _ =>
               if char_eqb c OPEN_PAREN
               then Some (List.length keyword
                          + List.length (take_while is_space after_keyword)
                          + 1)
               else None
           | [] => None
           end
       | None => None
       end
  else None.

(** The start offsets of [re.finditer(r'\bkeyword\s*\(', s)]: the scan
    resumes at the end of each match; [skip] counts the characters of the
    current match still to pass. *)
Fixpoint keyword_matches (keyword : str) (prev : option char)
  (skip pos : nat) (s : str) : list nat :=
  match s with
  | [] => []
  | c :: t =>
      match skip with
      | S k => keyword_matches keyword (Some c) k (S pos) t
      | O =>
          match keyword_match_length keyword prev s with
          | Some len =>
              pos :: keyword_matches keyword (Some c) (len - 1) (S pos) t
          | None => keyword_matches keyword (Some c) 0 (S pos) t
          end
      end
  end.

Definition _find_loops_in_range (c_code : str) (start_pos end_pos : nat)
  : list (str * nat) :=
  let text := slice start_pos end_pos c_code in
  let whiles :=
    map (fun p => (lit "while", start_pos + p))
      (keyword_matches (lit "while") None 0 0 text) in
  let fors :=
    map (fun p => (lit "for", start_pos + p))
      (keyword_matches (lit "for") None 0 0 text) in
  sort_key snd (whiles ++ fors).

End WordCharacters.

(** The word characters below U+0080: digits, letters and the
    underscore. *)
Definition ascii_word (c : char) : bool :=
  ((48 <=? c) && (c <=? 57) || (65 <=? c) && (c <=? 90)
   || (97 <=? c) && (c <=? 122) || (c =? 95))%N.

(** ** Further reference notions *)

(** [l1] is [l2] with some elements left out. *)
Inductive subsequence {A : Type} : list A -> list A -> Prop :=
  | subsequence_nil : subsequence [] []
  | subsequence_keep x l1 l2 :
      subsequence l1 l2 -> subsequence (x :: l1) (x :: l2)
  | subsequence_skip x l1 l2 :
      subsequence l1 l2 -> subsequence l1 (x :: l2).

(** The excess of opening over closing braces in [s]. *)
Fixpoint brace_depth (s : str) : Z :=
  match s with
  | [] => 0
  | c :: t =>
      ((if char_eqb c OPEN_BRACE then 1
        else if char_eqb c CLOSE_BRACE then -1 else 0)
       + brace_depth t)%Z
  end.



(** No stretch of white space in [s] holds more than two newlines: blank
    lines come one at a time. *)
Definition blank_lines_single (s : str) : Prop :=
  forall before rest,
    s = before ++ rest -> count_newlines (take_while is_space rest) <= 2.

(** ** Trees, by themselves *)

(** The nodes of a tree in pre-order: a node, then the nodes of each of
    its children, from left to right. *)
Fixpoint preorder (node : Node) : list Node :=
  node :: flat_map preorder (TreeSitter.children node).

(** [in_tree root node]: [node] is [root] or lies below it, at any
    depth. *)
Inductive in_tree : Node -> Node -> Prop :=
  | in_tree_root root : in_tree root root
  | in_tree_child root child node :
      In child (TreeSitter.children root) ->
      in_tree child node -> in_tree root node.

(** A [for], [while] or [do] node. *)
Definition is_loop_node (n : Node) : bool :=
  has_type "for_statement" n || has_type "while_statement" n
  || has_type "do_statement" n.

(** ** More sample sources *)

Module MoreSamples.

Import TreeSitter.

(** [void h(){while(1){for(;;){}}}]: a [for] loop inside a [while]
    loop. *)
Definition loops_text : str := lit "void h(){while(1){for(;;){}}}".
Definition inner_for : Node :=
  mkNode "for_statement" 18 27
    [Samples.leaf "for" 18 21; Samples.leaf "(" 21 22;
     Samples.leaf ";" 22 23; Samples.leaf ";" 23 24;
     Samples.leaf ")" 24 25; Samples.block 25 27 []].
Definition outer_while : Node :=
  mkNode "while_statement" 9 28
    [Samples.leaf "while" 9 14;
     mkNode "parenthesized_expression" 14 17
       [Samples.leaf "(" 14 15; Samples.leaf "number_literal" 15 16;
        Samples.leaf ")" 16 17];
     Samples.block 17 28 [inner_for]].
Definition loops_body : Node := Samples.block 8 29 [outer_while].
Definition loops_function : Node :=
  mkNode "function_definition" 0 29
    [Samples.leaf "primitive_type" 0 4; Samples.declarator 5; loops_body].
Definition while_info : LoopInfo.t :=
  LoopInfo.make (lit "while") (lit "while(1)") 9 1.
Definition for_info : LoopInfo.t :=
  LoopInfo.make (lit "for") (lit "for(;;)") 18 1.
Definition loops_info : FunctionInfo.t :=
  FunctionInfo.make (lit "h") (lit "void h()") 0 1 [while_info; for_info].

(** [int x;], three blank lines, [int f(){}]. *)
Definition spaced_text : str :=
  lit "int x;" ++ [NL; NL; NL; NL] ++ lit "int f(){}".
Definition spaced_tree : Node :=
  mkNode "translation_unit" 0 19
    [mkNode "declaration" 0 6
       [Samples.leaf "primitive_type" 0 3; Samples.leaf "identifier" 4 5;
        Samples.leaf ";" 5 6];
     mkNode "function_definition" 10 19
       [Samples.leaf "primitive_type" 10 13; Samples.declarator 14;
        Samples.block 17 19 []]].
Definition spaced_structure : CodeStructure :=
  {| functions := [FunctionInfo.make (lit "f") (lit "int f()") 10 5 []] |}.

(** [Samples.parse], knowing [spaced_text] and [loops_text] as well. *)
Definition parse (source_bytes : list byte) : Node :=
  if Samples.bytes_eqb source_bytes (Samples.bytes_of spaced_text)
  then spaced_tree
  else if Samples.bytes_eqb source_bytes (Samples.bytes_of loops_text)
  then mkNode "translation_unit" 0 29 [loops_function]
  else Samples.parse source_bytes.

(** The structure of [Samples.nested_text] when [k] bytes on [k] lines
    come before it: every position and line number is larger by [k]. *)
Definition moved (k : nat) : CodeStructure :=
  {| functions :=
       map (fun f =>
              FunctionInfo.make (FunctionInfo.name f)
                (FunctionInfo.signature f)
                (FunctionInfo.byte_position f + k)
                (FunctionInfo.line_number f + k)
                (map (fun loop =>
                        LoopInfo.make (LoopInfo.type loop)
                          (LoopInfo.header loop)
                          (LoopInfo.byte_position loop + k)
                          (LoopInfo.line_number loop + k))
                   (FunctionInfo.loops f)))
         (functions Samples.nested_structure) |}.

End MoreSamples.

(** * Properties *)

(** ** Strings *)

Lemma str_eqb_eq (a b : str) : str_eqb a b = true <-> a = b.
Proof.
  revert b; induction a as [|x a IH]; intros [|y b]; simpl;
    try (split; [discriminate | intros H; inversion H]; fail).
  - split; reflexivity.
  - unfold char_eqb. rewrite andb_true_iff, N.eqb_eq, IH.
    split; [intros [-> ->]; reflexivity | intros H; inversion H; auto].
Qed.

Lemma str_eqb_refl (a : str) : str_eqb a a = true.
Proof. apply str_eqb_eq; reflexivity. Qed.

Lemma str_eqb_neq (a b : str) : str_eqb a b = false -> a <> b.
Proof.
  intros H E. apply str_eqb_eq in E. rewrite E in H. discriminate.
Qed.

Lemma occurs_in_here (x after : str) : occurs_in x (x ++ after).
Proof. exists [], after. reflexivity. Qed.

Lemma occurs_in_skip (x p s : str) : occurs_in x s -> occurs_in x (p ++ s).
Proof.
  intros (b & a & ->). exists (p ++ b), a. now rewrite app_assoc.
Qed.

Lemma occurs_in_inside (x p s : str) : occurs_in x s -> occurs_in x (s ++ p).
Proof.
  intros (b & a & ->). exists b, (a ++ p). now rewrite <- !app_assoc.
Qed.

Lemma occurs_in_quoted (x after : str) : occurs_in x (quoted x ++ after).
Proof.
  unfold quoted. apply occurs_in_inside, occurs_in_skip, occurs_in_here.
Qed.

Lemma occurs_in_last (x : str) : occurs_in x x.
Proof. exists [], []. now rewrite app_nil_r. Qed.

Create HintDb occurs.
#[local] Hint Resolve occurs_in_here occurs_in_skip occurs_in_quoted
  occurs_in_last : occurs.

(** ** The comparator *)

Lemma compare_loops_sound (fname : str) :
  forall (l1 l2 : list LoopInfo.t) (j : nat),
    List.length l1 = List.length l2 ->
    match compare_loops fname j l1 l2 with
    | None => Forall2 loops_agree l1 l2
    | Some msg =>
        exists k la lb d,
          Forall2 loops_agree (firstn k l1) (firstn k l2)
          /\ nth_error l1 k = Some la /\ nth_error l2 k = Some lb
          /\ loop_divergence fname (j + k) la lb d /\ msg = describe d
    end.
Proof.
  induction l1 as [|a l1 IH]; intros [|b l2] j Hlen; simpl in *;
    try discriminate; [constructor|].
  destruct (str_eqb (LoopInfo.type a) (LoopInfo.type b)) eqn:Et; simpl.
  2:{ exists 0, a, b, (LoopType fname j (LoopInfo.type a) (LoopInfo.type b)).
      rewrite Nat.add_0_r. simpl.
      repeat split; auto using str_eqb_neq. }
  destruct (str_eqb (LoopInfo.header a) (LoopInfo.header b)) eqn:Eh; simpl.
  2:{ exists 0, a, b,
        (LoopHeader fname j (LoopInfo.header a) (LoopInfo.header b)).
      rewrite Nat.add_0_r. simpl. apply str_eqb_eq in Et.
      repeat split; auto using str_eqb_neq. }
  apply str_eqb_eq in Et, Eh.
  specialize (IH l2 (S j) (eq_add_S _ _ Hlen)).
  destruct (compare_loops fname (S j) l1 l2) as [msg|].
  - destruct IH as (k & la & lb & d & Hpre & Ha & Hb & Hd & ->).
    exists (S k), la, lb, d. simpl. rewrite <- Nat.add_succ_comm.
    repeat split; auto. constructor; [split|]; assumption.
  - constructor; [split|]; assumption.
Qed.

Lemma compare_functions_sound :
  forall (l1 l2 : list FunctionInfo.t) (i : nat),
    List.length l1 = List.length l2 ->
    match compare_functions i l1 l2 with
    | None => Forall2 functions_agree l1 l2
    | Some msg =>
        exists k f g d,
          Forall2 functions_agree (firstn k l1) (firstn k l2)
          /\ nth_error l1 k = Some f /\ nth_error l2 k = Some g
          /\ function_divergence (i + k) f g d /\ msg = describe d
    end.
Proof.
  induction l1 as [|f l1 IH]; intros [|g l2] i Hlen; simpl in *;
    try discriminate; [constructor|].
  destruct (str_eqb (FunctionInfo.name f) (FunctionInfo.name g)) eqn:En;
    simpl.
  2:{ exists 0, f, g,
        (FunctionName i (FunctionInfo.name f) (FunctionInfo.name g)).
      rewrite Nat.add_0_r. simpl.
      repeat split; auto using str_eqb_neq. }
  destruct (str_eqb (FunctionInfo.signature f) (FunctionInfo.signature g))
    eqn:Es; simpl.
  2:{ exists 0, f, g,
        (Signature (FunctionInfo.name f) (FunctionInfo.signature f)
           (FunctionInfo.signature g)).
      simpl. apply str_eqb_eq in En.
      repeat split; auto using str_eqb_neq. }
  apply str_eqb_eq in En, Es.
  destruct (List.length (FunctionInfo.loops f)
            =? List.length (FunctionInfo.loops g)) eqn:Ec; simpl.
  2:{ exists 0, f, g,
        (LoopCount (FunctionInfo.name f)
           (List.length (FunctionInfo.loops f))
           (List.length (FunctionInfo.loops g))).
      simpl. apply Nat.eqb_neq in Ec. repeat split; auto. }
  apply Nat.eqb_eq in Ec.
  pose proof (compare_loops_sound (FunctionInfo.name f)
                (FunctionInfo.loops f) (FunctionInfo.loops g) 0 Ec) as Hl.
  destruct (compare_loops (FunctionInfo.name f) 0 (FunctionInfo.loops f)
              (FunctionInfo.loops g)) as [msg|].
  - destruct Hl as (j & la & lb & d & Hpre & Ha & Hb & Hd & ->).
    exists 0, f, g, d. simpl in Hd. simpl.
    split; [constructor|]. do 2 (split; [reflexivity|]).
    split; [|reflexivity].
    destruct d; simpl in Hd |- *; try contradiction;
      (assert (j0 = j) as -> by tauto; exists la, lb;
       split; [repeat split; assumption | assumption]).
  - specialize (IH l2 (S i) (eq_add_S _ _ Hlen)).
    destruct (compare_functions (S i) l1 l2) as [msg|].
    + destruct IH as (k & f' & g' & d & Hpre & Ha & Hb & Hd & ->).
      exists (S k), f', g', d. simpl. rewrite <- Nat.add_succ_comm.
      repeat split; auto. constructor; [repeat split|]; assumption.
    + constructor; [repeat split|]; assumption.
Qed.

Lemma describe_names_field (d : divergence) :
  occurs_in (field_of d) (describe d).
Proof.
  destruct d; unfold field_of, describe;
    [ exists [], (lit " mismatch: skeleton has " ++ dec n
                  ++ lit ", completion has " ++ dec m)
    | exists (lit "Function " ++ dec i ++ lit " "),
        (lit " mismatch: " ++ quoted a ++ lit " vs " ++ quoted b)
    | exists (lit "Function " ++ quoted fname ++ lit " "),
        (lit " mismatch:" ++ skeleton_completion a b)
    | exists (lit "Function " ++ quoted fname ++ lit " "),
        (lit " mismatch: skeleton has " ++ dec n
         ++ lit ", completion has " ++ dec m)
    | exists (lit "Function " ++ quoted fname ++ lit " loop " ++ dec j
              ++ lit " "),
        (lit " mismatch: " ++ quoted a ++ lit " vs " ++ quoted b)
    | exists (lit "Function " ++ quoted fname ++ lit " loop " ++ dec j
              ++ lit " "),
        (lit " mismatch:" ++ skeleton_completion a b) ];
    unfold quoted, skeleton_completion; rewrite <- ?app_assoc; reflexivity.
Qed.

Lemma describe_names_values (d : divergence) :
  occurs_in (fst (observed d)) (describe d)
  /\ occurs_in (snd (observed d)) (describe d).
Proof.
  destruct d; unfold observed, describe, skeleton_completion, fst, snd;
    split; eauto 12 with occurs.
Qed.

Lemma compare_structures_reflexive (s : CodeStructure) :
  _compare_structures s s = (true, None).
Proof.
  assert (Hl : forall fname l j, compare_loops fname j l l = None).
  { intros fname l; induction l as [|a l IH]; intros j; simpl; auto.
    rewrite !str_eqb_refl. simpl. apply IH. }
  assert (Hf : forall l i, compare_functions i l l = None).
  { induction l as [|f l IH]; intros i; simpl; auto.
    rewrite !str_eqb_refl, Nat.eqb_refl, Hl. simpl. apply IH. }
  unfold _compare_structures. rewrite Nat.eqb_refl, Hf. reflexivity.
Qed.

Lemma compare_structures_failure_has_diagnostic (skel comp : CodeStructure)
  (error : option str) :
  _compare_structures skel comp = (false, error) ->
  exists diag, error = Some diag.
Proof.
  unfold _compare_structures.
  destruct (negb _); [intros [= <-]; eauto|].
  destruct (compare_functions _ _ _); intros [= <-]; eauto.
Qed.

Lemma compare_structures_success_no_diagnostic (skel comp : CodeStructure)
  (error : option str) :
  _compare_structures skel comp = (true, error) -> error = None.
Proof.
  unfold _compare_structures.
  destruct (negb _); [discriminate|].
  destruct (compare_functions _ _ _); [discriminate|]. now intros [= <-].
Qed.

(** C7. [_compare_structures] either succeeds, on structures that agree
    in every compared field, or fails with the diagnostic of the first
    divergence in the order function count, then per function name,
    signature, loop count, then per loop kind, header; that diagnostic
    names the compared field and both observed values. *)
Theorem compare_structures_reports_first_divergence
  (skel comp : CodeStructure) :
  (same_shape skel comp /\ _compare_structures skel comp = (true, None))
  \/ (exists d,
        first_divergence skel comp d
        /\ _compare_structures skel comp = (false, Some (describe d))
        /\ occurs_in (field_of d) (describe d)
        /\ occurs_in (fst (observed d)) (describe d)
        /\ occurs_in (snd (observed d)) (describe d)).
Proof.
  unfold _compare_structures, same_shape.
  destruct (List.length (functions skel) =? List.length (functions comp))
    eqn:Ec; simpl.
  2:{ right.
      exists (FunctionCount (List.length (functions skel))
                (List.length (functions comp))).
      apply Nat.eqb_neq in Ec. simpl.
      split; [auto|]. split; [reflexivity|].
      split; [apply (describe_names_field (FunctionCount _ _))|].
      apply (describe_names_values (FunctionCount _ _)). }
  apply Nat.eqb_eq in Ec.
  pose proof (compare_functions_sound (functions skel) (functions comp) 0 Ec)
    as H.
  destruct (compare_functions 0 (functions skel) (functions comp))
    as [msg|]; [right | left; auto].
  destruct H as (k & f & g & d & Hpre & Ha & Hb & Hd & ->).
  exists d. split.
  - assert (Hr : reaches_function skel comp k f g) by (repeat split; auto).
    destruct d; simpl in Hd |- *; try contradiction; exists k, f, g; auto.
  - split; [reflexivity|]. split; [apply describe_names_field|].
    apply describe_names_values.
Qed.

(** ** The orchestrator *)

Section Orchestrator.

Variable parse : list byte -> Node.

(** C1. When the comparator reports a mismatch on the structures
    extracted from the reference and the candidate, [validate_and_inject]
    returns failure with the comparator's diagnostic and no annotated
    text, whatever the fragments are (so also when injecting them would
    raise): nothing of the planner or splicer contributes.  And a success
    is returned only when the comparison succeeded and the text is the
    result of the injection on the candidate. *)
Theorem mismatch_fails_before_injection
  (skeleton completion : str) (spec : value) (skel comp : CodeStructure) :
  extract_structure parse skeleton = Ok skel ->
  extract_structure parse completion = Ok comp ->
  (fst (_compare_structures skel comp) = false ->
   exists diag,
     _compare_structures skel comp = (false, Some diag)
     /\ validate_and_inject parse skeleton completion spec
        = Ok (false, None, Some (lit "Validation failed: " ++ diag)))
  /\ (forall injected error,
        validate_and_inject parse skeleton completion spec
        = Ok (true, injected, error) ->
        _compare_structures skel comp = (true, None)
        /\ exists text,
             injected = Some text
             /\ inject_acsl_specs_treesitter parse spec completion = Ok text).
Proof.
  intros Hs Hc.
  unfold validate_and_inject, validate_completion_matches_skeleton.
  rewrite Hs, Hc. simpl.
  destruct (_compare_structures skel comp) as [valid error] eqn:E.
  split.
  - simpl. intros ->.
    destruct (compare_structures_failure_has_diagnostic _ _ E) as [diag ->].
    exists diag. split; reflexivity.
  - intros injected err. destruct valid; simpl; [|discriminate].
    destruct (inject_acsl_specs_treesitter parse spec completion)
      as [text|e]; intros [= <- <-].
    split; [|eauto].
    now rewrite (compare_structures_success_no_diagnostic _ _ E).
Qed.

(** C5. On a text that the Tree Provider parses, with empty predicates
    and no other fragment, [validate_and_inject T T [[]]] succeeds and
    returns [T] itself, so the annotated text and [T] are equal after the
    white-space clean-up of the splicer as well. *)
Theorem empty_fragments_pass_through (T : str) (s : CodeStructure) :
  extract_structure parse T = Ok s ->
  exists annotated,
    validate_and_inject parse T T (PyList [PyList []])
    = Ok (true, Some annotated, None)
    /\ annotated = T
    /\ strip (collapse_blank_lines 0 annotated)
       = strip (collapse_blank_lines 0 T).
Proof.
  intros Hs. exists T.
  unfold validate_and_inject, validate_completion_matches_skeleton.
  rewrite Hs. simpl. rewrite compare_structures_reflexive. simpl.
  repeat split.
Qed.

End Orchestrator.

(** ** Sorting *)

Section SortFacts.

Context {A : Type} (before : A -> A -> bool).

Lemma insert_by_perm (x : A) (l : list A) :
  Permutation (insert_by before x l) (x :: l).
Proof.
  induction l as [|y l IH]; simpl; [reflexivity|].
  destruct (before x y); [reflexivity|].
  rewrite IH. apply perm_swap.
Qed.

Lemma sort_by_perm (l : list A) : Permutation (sort_by before l) l.
Proof.
  induction l as [|x l IH]; simpl; [reflexivity|].
  rewrite insert_by_perm. now constructor.
Qed.

Variable R : A -> A -> Prop.
Hypothesis before_R : forall x y, before x y = true -> R x y.
Hypothesis not_before_R : forall x y, before x y = false -> R y x.
Hypothesis R_trans : forall x y z, R x y -> R y z -> R x z.

Lemma insert_by_sorted (x : A) (l : list A) :
  StronglySorted R l -> StronglySorted R (insert_by before x l).
Proof.
  induction 1 as [|y l Hs IH Hy]; simpl; [repeat constructor|].
  destruct (before x y) eqn:E.
  - constructor; [now constructor|].
    constructor; [auto|].
    eapply Forall_impl; [|exact Hy]. intros z Hz; eauto.
  - constructor; [assumption|].
    apply (Permutation_Forall (Permutation_sym (insert_by_perm x l))).
    constructor; auto.
Qed.

Lemma sort_by_sorted (l : list A) : StronglySorted R (sort_by before l).
Proof.
  induction l as [|x l IH]; simpl; [constructor|].
  now apply insert_by_sorted.
Qed.

End SortFacts.

Lemma sort_key_reverse_perm {A} (key : A -> nat) (l : list A) :
  Permutation (sort_key_reverse key l) l.
Proof. apply sort_by_perm. Qed.

Lemma sort_key_reverse_sorted {A} (key : A -> nat) (l : list A) :
  StronglySorted (fun p q => key q <= key p) (sort_key_reverse key l).
Proof.
  apply sort_by_sorted.
  - intros x y H. now apply Nat.leb_le.
  - intros x y H. apply Nat.leb_gt in H. lia.
  - intros x y z; lia.
Qed.

Lemma sorted_distinct_strict {A} (key : A -> nat) (l : list A) :
  StronglySorted (fun p q => key q <= key p) l ->
  NoDup (map key l) ->
  StronglySorted (fun p q => key q < key p) l.
Proof.
  induction 1 as [|x l Hs IH Hx]; simpl; intros Hnd; [constructor|].
  inversion Hnd as [|? ? Hnotin Hnd']; subst.
  constructor; [auto|].
  rewrite Forall_forall in Hx |- *. intros y Hy.
  specialize (Hx y Hy).
  assert (key y <> key x); [|lia].
  intros E. apply Hnotin. rewrite <- E. now apply in_map.
Qed.

(** ** The planner *)

Lemma loop_slots_length (func : FunctionInfo.t) (loops : list LoopInfo.t) :
  forall loop_idx idx,
    List.length (loop_slots func loop_idx loops idx) = List.length loops.
Proof. induction loops; simpl; auto. Qed.

Lemma loop_slots_index (func : FunctionInfo.t) (loops : list LoopInfo.t) :
  forall loop_idx idx k p,
    nth_error (loop_slots func loop_idx loops idx) k = Some p ->
    InjectionPoint.spec_index p = idx + k.
Proof.
  induction loops as [|loop rest IH]; intros loop_idx idx [|k] p; simpl;
    try discriminate.
  - intros [= <-]. simpl. lia.
  - intros H. apply IH in H. lia.
Qed.

Lemma function_slots_index (funcs : list FunctionInfo.t) :
  forall idx k p,
    nth_error (function_slots funcs idx) k = Some p ->
    InjectionPoint.spec_index p = idx + k.
Proof.
  induction funcs as [|func rest IH]; intros idx [|k] p; simpl;
    try discriminate.
  - intros [= <-]. simpl. lia.
  - intros H.
    destruct (Nat.lt_ge_cases k (List.length (FunctionInfo.loops func)))
      as [Hk|Hk].
    + rewrite nth_error_app1 in H by now rewrite loop_slots_length.
      apply loop_slots_index in H. lia.
    + rewrite nth_error_app2 in H by now rewrite loop_slots_length.
      rewrite loop_slots_length in H. apply IH in H. lia.
Qed.

Section Planner.

Variables (spec : value) (n : nat).
Hypothesis spec_len : py_len spec = Ok n.

Lemma visit_loops_slots (func : FunctionInfo.t) (loops : list LoopInfo.t) :
  forall loop_idx acc idx,
    visit_loops spec func loop_idx loops (acc, idx)
    = Ok (acc ++ firstn (n - idx) (loop_slots func loop_idx loops idx),
          idx + List.length
                  (firstn (n - idx) (loop_slots func loop_idx loops idx))).
Proof.
  induction loops as [|loop rest IH]; intros loop_idx acc idx; simpl.
  - rewrite firstn_nil, app_nil_r, Nat.add_0_r. reflexivity.
  - rewrite spec_len. simpl. destruct (idx <? n) eqn:E; simpl.
    + apply Nat.ltb_lt in E. rewrite IH, Nat.add_1_r.
      replace (n - idx) with (S (n - S idx)) by lia. simpl.
      rewrite <- app_assoc. simpl. f_equal. f_equal. lia.
    + apply Nat.ltb_ge in E. rewrite IH.
      replace (n - idx) with 0 by lia. reflexivity.
Qed.

Lemma visit_functions_slots (funcs : list FunctionInfo.t) :
  forall acc idx,
    visit_functions spec funcs (acc, idx)
    = Ok (acc ++ firstn (n - idx) (function_slots funcs idx),
          idx + List.length (firstn (n - idx) (function_slots funcs idx))).
Proof.
  induction funcs as [|func rest IH]; intros acc idx; simpl.
  - rewrite firstn_nil, app_nil_r, Nat.add_0_r. reflexivity.
  - rewrite spec_len. simpl. destruct (idx <? n) eqn:E; simpl.
    + apply Nat.ltb_lt in E.
      rewrite Nat.add_1_r, visit_loops_slots. simpl. rewrite IH.
      replace (n - idx) with (S (n - S idx)) by lia. simpl.
      rewrite firstn_app, loop_slots_length, length_app, !length_firstn,
        loop_slots_length.
      rewrite <- !app_assoc. simpl.
      destruct (Nat.le_gt_cases (List.length (FunctionInfo.loops func))
                  (n - S idx)) as [H|H].
      * rewrite (Nat.min_r _ _ H).
        replace (n - S (idx + List.length (FunctionInfo.loops func)))
          with (n - S idx - List.length (FunctionInfo.loops func)) by lia.
        f_equal. f_equal; try reflexivity; lia.
      * rewrite Nat.min_l by lia.
        replace (n - S (idx + (n - S idx))) with 0 by lia.
        replace (n - S idx - List.length (FunctionInfo.loops func))
          with 0 by lia.
        simpl. f_equal. f_equal; try reflexivity; lia.
    + apply Nat.ltb_ge in E. rewrite visit_loops_slots. simpl.
      replace (n - idx) with 0 by lia. simpl.
      rewrite app_nil_r, Nat.add_0_r.
      rewrite IH. replace (n - idx) with 0 by lia. simpl.
      now rewrite app_nil_r, Nat.add_0_r.
Qed.

Lemma plan_injection_points_slots (structure : CodeStructure) :
  plan_injection_points structure spec
  = Ok (sort_key_reverse InjectionPoint.byte_position
          (firstn (n - 1) (slots structure))).
Proof.
  unfold plan_injection_points, slots.
  rewrite visit_functions_slots. reflexivity.
Qed.

End Planner.

Lemma in_firstn_nth_error {A} (l : list A) (k m : nat) (x : A) :
  nth_error l k = Some x -> k < m -> In x (firstn m l).
Proof.
  revert k m; induction l as [|y l IH]; intros [|k] [|m]; simpl;
    try discriminate; try lia.
  - intros [= ->] _. now left.
  - intros H Hk. right. apply (IH k); [assumption | lia].
Qed.

(** C8. The planner never fails on a fragment list: it returns the first
    [len(spec) - 1] slots of the structure in traversal order (sorted
    afterwards), all of them when there are fewer slots than that.  It
    stops emitting when the fragments run out and leaves surplus fragments
    untouched.  For one function with two loops and two fragments after
    the predicates, the points are the function's and its first loop's. *)
Theorem planner_truncates_silently
  (structure : CodeStructure) (l : list value) :
  (exists points,
     plan_injection_points structure (PyList l) = Ok points
     /\ Permutation points (firstn (List.length l - 1) (slots structure))
     /\ List.length points
        = Nat.min (List.length l - 1) (List.length (slots structure))
     /\ forall p, In p points ->
          1 <= InjectionPoint.spec_index p
          /\ InjectionPoint.spec_index p < List.length l
          /\ InjectionPoint.spec_index p <= List.length (slots structure))
  /\ forall name signature pos line loop1 loop2 predicates spec1 spec2,
       let func :=
         FunctionInfo.make name signature pos line [loop1; loop2] in
       exists points,
         plan_injection_points {| functions := [func] |}
           (PyList [predicates; spec1; spec2]) = Ok points
         /\ List.length points = 2
         /\ Permutation points
              [InjectionPoint.make function_point pos line 1
                 (lit "function " ++ quoted name);
               InjectionPoint.make loop_point (LoopInfo.byte_position loop1)
                 (LoopInfo.line_number loop1) 2
                 (lit "loop " ++ dec 0 ++ lit " in function " ++ quoted name
                  ++ lit " (" ++ LoopInfo.type loop1 ++ lit " loop)")].
Proof.
  split.
  - eexists. split; [apply plan_injection_points_slots; reflexivity|].
    split; [apply sort_key_reverse_perm|].
    split.
    + rewrite (Permutation_length (sort_key_reverse_perm _ _)).
      apply length_firstn.
    + intros p Hp.
      apply (Permutation_in _ (sort_key_reverse_perm _ _)) in Hp.
      apply In_nth_error in Hp. destruct Hp as [k Hk].
      assert (Hlt : k < List.length
                          (firstn (List.length l - 1) (slots structure))).
      { apply nth_error_Some. rewrite Hk. discriminate. }
      rewrite length_firstn in Hlt.
      rewrite nth_error_firstn in Hk.
      destruct (k <? List.length l - 1); [|discriminate].
      apply function_slots_index in Hk. lia.
  - intros. eexists.
    split; [apply plan_injection_points_slots; reflexivity|].
    split.
    + rewrite (Permutation_length (sort_key_reverse_perm _ _)). reflexivity.
    + rewrite sort_key_reverse_perm. reflexivity.
Qed.

(** ** The splicer *)

Lemma splice_point_blank (l : list value) (result t : str)
  (point : InjectionPoint.t) :
  nth_error l (InjectionPoint.spec_index point) = Some (PyStr t) ->
  strip t = [] ->
  splice_point (PyList l) result point = Ok result.
Proof.
  intros Hnth Hblank. unfold splice_point. simpl. rewrite Hnth. simpl.
  destruct (negb (List.length t =? 0)); [|reflexivity].
  now rewrite Hblank.
Qed.

Lemma splice_point_prefix (spec : value) (result r : str)
  (point : InjectionPoint.t) (q : nat) :
  splice_point spec result point = Ok r ->
  q <= InjectionPoint.byte_position point ->
  q <= List.length result ->
  upto q r = upto q result /\ q <= List.length r.
Proof.
  unfold splice_point, upto, from. intros H Hq Hlen.
  destruct (py_getitem spec _) as [spec_text|]; simpl in H; [|discriminate].
  destruct (truthy spec_text); [|injection H as <-; auto].
  destruct (py_strip spec_text) as [text|]; simpl in H; [|discriminate].
  destruct (nonempty text); injection H as <-; [|auto].
  rewrite firstn_app, firstn_firstn, length_app, !length_firstn.
  replace (q - _) with 0 by lia. rewrite Nat.min_l by lia.
  simpl. rewrite app_nil_r. split; [reflexivity | lia].
Qed.

Lemma splice_points_prefix (spec : value) (points : list InjectionPoint.t) :
  forall (body r : str) (q : nat),
    splice_points spec points body = Ok r ->
    Forall (fun p => q <= InjectionPoint.byte_position p) points ->
    q <= List.length body ->
    upto q r = upto q body.
Proof.
  unfold splice_points.
  induction points as [|p points IH]; simpl; intros body r q H Hall Hlen.
  - now injection H as <-.
  - inversion Hall as [|? ? Hp Hrest]; subst.
    destruct (splice_point spec body p) as [r1|] eqn:E; simpl in H;
      [|discriminate].
    destruct (splice_point_prefix _ _ _ E Hp Hlen) as [E1 Hlen1].
    rewrite <- E1. now apply IH.
Qed.

Lemma sorted_app_before {A} (R : A -> A -> Prop) (l1 l2 : list A) (x : A) :
  StronglySorted R (l1 ++ x :: l2) -> Forall (fun y => R y x) l1.
Proof.
  induction l1 as [|y l1 IH]; simpl; intros H; [constructor|].
  inversion H as [|? ? Hs Hy]; subst.
  constructor; [|auto].
  rewrite Forall_forall in Hy. apply Hy, in_elt.
Qed.

(** C3 (as the code has it).  The planner gives a point to every slot
    that has a fragment, blank or not: slot [k] of the traversal always
    carries fragment index [k + 1], so a blank fragment uses up its slot.
    It is the splicer that drops it: at the point of a fragment that is
    empty or white space only, the text is left as it was. *)
Theorem blank_fragment_planned_but_not_spliced
  (structure : CodeStructure) (l : list value) (i : nat) (t : str)
  (point : InjectionPoint.t) :
  nth_error l i = Some (PyStr t) ->
  strip t = [] ->
  1 <= i ->
  nth_error (slots structure) (i - 1) = Some point ->
  (forall k p, nth_error (slots structure) k = Some p ->
               InjectionPoint.spec_index p = k + 1)
  /\ exists points,
       plan_injection_points structure (PyList l) = Ok points
       /\ In point points
       /\ InjectionPoint.spec_index point = i
       /\ forall result, splice_point (PyList l) result point = Ok result.
Proof.
  intros Hnth Hblank Hi Hslot.
  assert (Hidx : forall k p, nth_error (slots structure) k = Some p ->
                             InjectionPoint.spec_index p = k + 1).
  { intros k p H. apply function_slots_index in H. lia. }
  split; [exact Hidx|].
  assert (Hlen : i < List.length l).
  { apply nth_error_Some. rewrite Hnth. discriminate. }
  eexists. split; [apply plan_injection_points_slots; reflexivity|].
  split.
  - apply (Permutation_in _ (Permutation_sym (sort_key_reverse_perm _ _))).
    apply in_firstn_nth_error with (k := i - 1); [assumption | lia].
  - pose proof (Hidx _ _ Hslot) as E.
    assert (Ei : InjectionPoint.spec_index point = i) by lia.
    split; [exact Ei|]. intros result.
    apply splice_point_blank with (t := t); [now rewrite Ei | assumption].
Qed.

(** C6 (as the code has it).  The planner returns its points sorted by
    byte position in descending order, not strictly: points with equal
    positions stay next to each other.  The order is strict whenever the
    positions are pairwise distinct.  Applying the points in that order to
    a text that contains all of them leaves the text before every point
    not yet applied unchanged, so its stored offset still denotes the same
    place. *)
Theorem planner_output_descending
  (structure : CodeStructure) (l : list value) :
  (exists points, plan_injection_points structure (PyList l) = Ok points)
  /\ forall points,
       plan_injection_points structure (PyList l) = Ok points ->
       descending points
       /\ (NoDup (map InjectionPoint.byte_position points) ->
           strictly_descending points)
       /\ forall applied point pending body result,
            points = applied ++ point :: pending ->
            InjectionPoint.byte_position point <= List.length body ->
            splice_points (PyList l) applied body = Ok result ->
            upto (InjectionPoint.byte_position point) result
            = upto (InjectionPoint.byte_position point) body.
Proof.
  pose proof (@plan_injection_points_slots (PyList l) _ eq_refl structure)
    as Hplan.
  split; [eauto|].
  intros points H. rewrite Hplan in H. injection H as <-.
  pose proof (sort_key_reverse_sorted InjectionPoint.byte_position
                (firstn (List.length l - 1) (slots structure))) as Hsorted.
  split; [exact Hsorted|].
  split; [now apply sorted_distinct_strict|].
  intros applied point pending body result E Hlen Happly.
  apply (splice_points_prefix _ _ Happly); [|assumption].
  rewrite E in Hsorted.
  exact (sorted_app_before _ _ _ Hsorted).
Qed.

(** *** Header and body *)

Lemma split_lines_nonempty (s : str) : split_lines s <> [].
Proof.
  destruct s as [|c t]; simpl; [discriminate|].
  destruct (char_eqb c NL); [discriminate|].
  destruct (split_lines t); discriminate.
Qed.

Lemma join_split_lines (s : str) : join [NL] (split_lines s) = s.
Proof.
  induction s as [|c t IH]; [reflexivity|].
  simpl. destruct (char_eqb c NL) eqn:E.
  - apply N.eqb_eq in E. subst c.
    destruct (split_lines t) as [|l ls] eqn:Et;
      [now apply split_lines_nonempty in Et|].
    change (join [NL] ([] :: l :: ls)) with (NL :: join [NL] (l :: ls)).
    now rewrite IH.
  - destruct (split_lines t) as [|l ls] eqn:Et;
      [now apply split_lines_nonempty in Et|].
    rewrite <- IH. destruct ls; reflexivity.
Qed.

Lemma scan_includes_none (lines : list str) :
  forall i last,
    (forall line, In line lines -> matches_include line = false) ->
    scan_includes i lines last = last.
Proof.
  induction lines as [|line rest IH]; intros i last H; simpl; [reflexivity|].
  rewrite (H line) by now left.
  apply IH. intros; apply H; now right.
Qed.

Lemma scan_includes_last (lines : list str) :
  forall i last k line,
    nth_error lines k = Some line ->
    matches_include line = true ->
    (forall j line', k < j -> nth_error lines j = Some line' ->
                     matches_include line' = false) ->
    scan_includes i lines last = (i + Z.of_nat k)%Z.
Proof.
  induction lines as [|x rest IH]; intros i last [|k] line Hk Hm Hafter;
    simpl in *; try discriminate.
  - injection Hk as ->. rewrite Hm, scan_includes_none; [lia|].
    intros line' Hin. apply In_nth_error in Hin. destruct Hin as [j Hj].
    apply (Hafter (S j)); [lia | exact Hj].
  - rewrite (IH (i + 1)%Z _ k line Hk Hm); [lia|].
    intros j line' Hlt Hj. apply (Hafter (S j)); [lia | exact Hj].
Qed.

Lemma take_drop_while {A} (p : A -> bool) (l : list A) :
  firstn (List.length (take_while p l)) l = take_while p l
  /\ skipn (List.length (take_while p l)) l = drop_while p l.
Proof.
  induction l as [|x l [IH1 IH2]]; simpl; [auto|].
  destruct (p x); simpl; [|auto]. now rewrite IH1, IH2.
Qed.

Lemma take_while_all {A} (p : A -> bool) (l : list A) (k : nat) (x : A) :
  nth_error (take_while p l) k = Some x ->
  nth_error l k = Some x /\ p x = true.
Proof.
  revert k; induction l as [|y l IH]; intros k; simpl;
    [destruct k; discriminate|].
  destruct (p y) eqn:E; [|destruct k; discriminate].
  destruct k; simpl; [intros [= ->]; auto | apply IH].
Qed.

Lemma after_take_while {A} (p : A -> bool) (l : list A) (j : nat) (x : A) :
  forallb (fun y => negb (p y)) (drop_while p l) = true ->
  List.length (take_while p l) <= j ->
  nth_error l j = Some x -> p x = false.
Proof.
  intros Hall Hj Hx.
  destruct (take_drop_while p l) as [_ Hd].
  rewrite forallb_forall in Hall.
  apply negb_true_iff, Hall. rewrite <- Hd.
  apply nth_error_In with (n := j - List.length (take_while p l)).
  rewrite nth_error_skipn. rewrite <- Hx. f_equal. lia.
Qed.

Lemma count_newlines_app (a b : str) :
  count_newlines (a ++ b) = count_newlines a + count_newlines b.
Proof. unfold count_newlines. now rewrite filter_app, length_app. Qed.

Lemma scan_includes_range (lines : list str) :
  forall i last,
    scan_includes i lines last = last
    \/ (i <= scan_includes i lines last
        < i + Z.of_nat (List.length lines))%Z.
Proof.
  induction lines as [|line rest IH]; intros i last; simpl; [now left|].
  destruct (matches_include line).
  - right. destruct (IH (i + 1)%Z i) as [-> | H]; lia.
  - destruct (IH (i + 1)%Z last) as [-> | H]; [now left | right; lia].
Qed.

Lemma scan_includes_reaches (lines : list str) :
  forall i last j line,
    nth_error lines j = Some line ->
    matches_include line = true ->
    (i + Z.of_nat j <= scan_includes i lines last)%Z.
Proof.
  induction lines as [|x rest IH]; intros i last [|j] line Hj Hm;
    simpl in *; try discriminate.
  - injection Hj as ->. rewrite Hm.
    destruct (scan_includes_range rest (i + 1) i) as [-> | H]; lia.
  - specialize (IH (i + 1)%Z (if matches_include x then i else last)
                  j line Hj Hm). lia.
Qed.

Lemma split_lines_no_newline (s : str) :
  Forall (fun line => count_newlines line = 0) (split_lines s).
Proof.
  induction s as [|c t IH]; simpl; [repeat constructor|].
  destruct (char_eqb c NL) eqn:E; [constructor; [reflexivity | exact IH]|].
  destruct (split_lines t) as [|l ls].
  - repeat constructor. unfold count_newlines. simpl. now rewrite E.
  - inversion IH as [|? ? Hl Hls]; subst. constructor; [|exact Hls].
    unfold count_newlines in *. simpl. now rewrite E.
Qed.

Lemma forall_firstn {A} (P : A -> Prop) (n : nat) (l : list A) :
  Forall P l -> Forall P (firstn n l).
Proof.
  intros H. rewrite Forall_forall in H |- *. intros x Hx. apply H.
  rewrite <- (firstn_skipn n l). apply in_or_app. now left.
Qed.

Lemma join_newline_count (ls : list str) :
  Forall (fun line => count_newlines line = 0) ls ->
  count_newlines (join [NL] ls) = List.length ls - 1.
Proof.
  induction 1 as [|l ls Hl Hls IH]; [reflexivity|].
  destruct ls as [|l2 ls]; [simpl; now rewrite Hl|].
  change (join [NL] (l :: l2 :: ls)) with (l ++ [NL] ++ join [NL] (l2 :: ls)).
  rewrite !count_newlines_app, Hl, IH.
  change (count_newlines [NL]) with 1. simpl. lia.
Qed.

(** When an include-style line comes after the leading run, the header
    reaches that line and is no longer the leading run. *)
Lemma leading_split_needs_no_later_include (c_code : str) :
  split_header_body c_code = leading_include_split c_code ->
  forallb (fun line => negb (matches_include line))
    (drop_while matches_include (split_lines c_code)) = true.
Proof.
  intros E. apply forallb_forall. intros x Hx.
  destruct (matches_include x) eqn:M; [exfalso | reflexivity].
  destruct (take_drop_while matches_include (split_lines c_code))
    as [Ht Hd].
  rewrite <- Hd in Hx. apply In_nth_error in Hx. destruct Hx as [j Hj].
  rewrite nth_error_skipn in Hj.
  pose proof (@scan_includes_reaches (split_lines c_code) 0 (-1) _ _ Hj M)
    as Hr.
  destruct (scan_includes_range (split_lines c_code) 0 (-1))
    as [Hm1 | Hrange]; [lia|].
  unfold split_header_body, leading_include_split, upto, from in E.
  rewrite <- Ht in E.
  destruct (0 <=? scan_includes 0 (split_lines c_code) (-1))%Z eqn:Er;
    [|apply Z.leb_gt in Er; lia].
  injection E as E1 _.
  pose proof (f_equal count_newlines E1) as En.
  rewrite !join_newline_count in En
    by (apply forall_firstn, split_lines_no_newline).
  rewrite !length_firstn in En.
  destruct (List.length (take_while matches_include (split_lines c_code)))
    as [|m] eqn:Em.
  - assert (Ej : j = 0) by lia. subst j. simpl in Hj.
    replace (Z.to_nat (scan_includes 0 (split_lines c_code) (-1) + 1))
      with 1 in E1 by lia.
    destruct (split_lines c_code) as [|l0 ls]; [discriminate|].
    injection Hj as ->. simpl in E1. subst x. discriminate M.
  - lia.
Qed.

(** C2 (as the code has it).  The header zone is made of the lines up to
    and including the last include-style line of the text, wherever that
    line is, and the body zone of the lines after it; a text without any
    include-style line has an empty header and is its own body.  The
    header is the leading run of include-style lines exactly when no
    such line comes after that run. *)
Theorem header_ends_at_last_include (c_code : str) :
  (forall k line,
     nth_error (split_lines c_code) k = Some line ->
     matches_include line = true ->
     (forall j line', k < j -> nth_error (split_lines c_code) j = Some line' ->
                      matches_include line' = false) ->
     split_header_body c_code
     = (join [NL] (firstn (S k) (split_lines c_code)),
        join [NL] (skipn (S k) (split_lines c_code))))
  /\ ((forall line, In line (split_lines c_code) ->
                    matches_include line = false) ->
      split_header_body c_code = ([], c_code))
  /\ (forallb (fun line => negb (matches_include line))
        (drop_while matches_include (split_lines c_code)) = true
      <-> split_header_body c_code = leading_include_split c_code).
Proof.
  assert (Hlast : forall k line,
     nth_error (split_lines c_code) k = Some line ->
     matches_include line = true ->
     (forall j line', k < j -> nth_error (split_lines c_code) j = Some line' ->
                      matches_include line' = false) ->
     split_header_body c_code
     = (join [NL] (firstn (S k) (split_lines c_code)),
        join [NL] (skipn (S k) (split_lines c_code)))).
  { intros k line Hk Hm Hafter. unfold split_header_body, upto, from.
    rewrite (@scan_includes_last _ 0 (-1) _ _ Hk Hm Hafter).
    destruct (0 <=? 0 + Z.of_nat k)%Z eqn:E; [|apply Z.leb_gt in E; lia].
    replace (Z.to_nat (0 + Z.of_nat k + 1)) with (S k) by lia.
    reflexivity. }
  assert (Hnone : (forall line, In line (split_lines c_code) ->
                                matches_include line = false) ->
                  split_header_body c_code = ([], c_code)).
  { intros H. unfold split_header_body.
    now rewrite (@scan_includes_none _ 0 (-1) H). }
  split; [exact Hlast|]. split; [exact Hnone|].
  split; [|apply leading_split_needs_no_later_include].
  intros Hall. unfold leading_include_split.
  destruct (take_drop_while matches_include (split_lines c_code))
    as [Ht Hd].
  destruct (take_while matches_include (split_lines c_code))
    as [|x run] eqn:Erun.
  - simpl in Hd. rewrite <- Hd, join_split_lines. apply Hnone.
    intros line Hin. apply In_nth_error in Hin. destruct Hin as [j Hj].
    apply (@after_take_while _ matches_include _ j _ Hall); [|exact Hj].
    rewrite Erun. simpl. lia.
  - rewrite <- Ht, <- Hd. simpl List.length.
    destruct (nth_error (take_while matches_include (split_lines c_code))
                (List.length run)) as [line|] eqn:Hk;
      [|apply nth_error_None in Hk; rewrite Erun in Hk; simpl in Hk; lia].
    apply take_while_all in Hk. destruct Hk as [Hk Hm].
    apply (Hlast _ _ Hk Hm).
    intros j line' Hlt Hj.
    apply (@after_take_while _ matches_include _ j _ Hall); [|exact Hj].
    rewrite Erun. simpl. lia.
Qed.

(** ** Fragment sequences *)

Lemma first_non_str_none (items : list value) :
  forall i,
    first_non_str i items = None
    <-> Forall (fun v => is_str v = true) items.
Proof.
  induction items as [|item rest IH]; intros i; simpl.
  - split; [constructor | reflexivity].
  - destruct (is_str item) eqn:E.
    + rewrite IH. split; [now constructor | now inversion 1].
    + split; [discriminate|]. inversion 1; congruence.
Qed.

Lemma well_formed_spec_inv (preds rest : list value) :
  well_formed_spec (PyList (PyList preds :: rest))
  <-> Forall (fun v => is_str v = true) preds
      /\ Forall (fun v => is_str v = true) rest.
Proof.
  split.
  - intros (p & r & [= -> ->] & H). exact H.
  - intros [Hp Hr]. exists preds, rest. auto.
Qed.

Section FragmentCheck.

Variable parse : list byte -> Node.

(** C4 (as the code has it).  The check of the fragment sequence is
    [validate_spec_structure]: it looks at the sequence only, accepts
    exactly the well-formed ones and answers every other with a failure
    and a message.  [validate_and_inject] does not call it: once the
    structures match, its answer is the outcome of the injection, a
    failure only if the injection raises. *)
Theorem fragment_check_is_separate (spec : value) :
  (well_formed_spec spec <-> validate_spec_structure spec = (true, None))
  /\ (~ well_formed_spec spec
      <-> exists msg, validate_spec_structure spec = (false, Some msg))
  /\ forall skeleton completion skel comp,
       extract_structure parse skeleton = Ok skel ->
       extract_structure parse completion = Ok comp ->
       _compare_structures skel comp = (true, None) ->
       validate_and_inject parse skeleton completion spec
       = match inject_acsl_specs_treesitter parse spec completion with
         | Ok injected => Ok (true, Some injected, None)
         | Raise e =>
             Ok (false, None, Some (lit "Injection failed: " ++ exn_str e))
         end.
Proof.
  assert (Hdec : (well_formed_spec spec
                  /\ validate_spec_structure spec = (true, None))
                 \/ (~ well_formed_spec spec
                     /\ exists msg,
                          validate_spec_structure spec = (false, Some msg))).
  { destruct spec as [| z | s | items];
      try (right; split; [intros (p & r & H & _); discriminate
                         | simpl; eauto]).
    destruct items as [|first rest];
      [right; split; [intros (p & r & H & _); discriminate | simpl; eauto]|].
    destruct first as [| z | s | preds];
      try (right; split; [intros (p & r & H & _); discriminate
                         | simpl; eauto]).
    simpl. rewrite well_formed_spec_inv.
    destruct (first_non_str 0 preds) as [[i pred]|] eqn:Ep.
    - right. split; [|eauto]. intros [Hp _].
      apply first_non_str_none with (i := 0) in Hp. congruence.
    - destruct (first_non_str 1 rest) as [[i item]|] eqn:Er.
      + right. split; [|eauto]. intros [_ Hr].
        apply first_non_str_none with (i := 1) in Hr. congruence.
      + left. apply first_non_str_none in Ep, Er. auto. }
  split; [|split].
  - destruct Hdec as [[Hw Hv] | [Hw [msg Hv]]]; split; intros H; auto;
      try contradiction; congruence.
  - destruct Hdec as [[Hw Hv] | [Hw [msg Hv]]]; split; intros H; eauto;
      try contradiction; destruct H as [m Hm]; congruence.
  - intros skeleton completion skel comp Hs Hc Hcmp.
    unfold validate_and_inject, validate_completion_matches_skeleton.
    rewrite Hs, Hc. simpl. rewrite Hcmp. reflexivity.
Qed.

End FragmentCheck.

(** ** Function names *)

Lemma no_direct_name_identifiers (func_node : Node) :
  no_direct_name func_node ->
  flat_map (fun child =>
              if has_type "function_declarator" child
              then filter (has_type "identifier") (TreeSitter.children child)
              else [])
    (TreeSitter.children func_node) = [].
Proof.
  unfold no_direct_name.
  induction (TreeSitter.children func_node) as [|child rest IH];
    intros H; simpl; [reflexivity|].
  rewrite IH by (intros c Hc; apply H; now right).
  rewrite app_nil_r.
  destruct (has_type "function_declarator" child) eqn:E; [|reflexivity].
  specialize (H child (or_introl eq_refl) E).
  induction (TreeSitter.children child) as [|sub subs IHs]; [reflexivity|].
  simpl. rewrite (H sub) by now left.
  apply IHs. intros s Hs. apply H. now right.
Qed.

Lemma extract_function_info_name (func_node : Node)
  (source_bytes : list byte) (source_str name : str) (f : FunctionInfo.t) :
  _get_function_name func_node source_bytes = Ok name ->
  _extract_function_info func_node source_bytes source_str = Ok f ->
  FunctionInfo.name f = name.
Proof.
  unfold _extract_function_info. intros ->. simpl.
  destruct (_get_function_signature func_node source_bytes); simpl;
    [|discriminate].
  destruct (match find _ _ with Some _ => _ | None => _ end); simpl;
    [|discriminate].
  now intros [= <-].
Qed.

(** C10. A function definition without a direct [function_declarator]
    child that holds an [identifier] (as for [int *f(...)], whose
    declarator lies under a pointer declarator) gets the name
    ["unknown"]; the name lookup does not fail.  Two such functions have
    the same recorded name, so the comparator's name test passes for them
    whatever they are called. *)
Theorem missing_declarator_named_unknown
  (node1 node2 : Node) (bytes1 bytes2 : list byte) (text1 text2 : str)
  (f1 f2 : FunctionInfo.t) :
  no_direct_name node1 ->
  no_direct_name node2 ->
  _extract_function_info node1 bytes1 text1 = Ok f1 ->
  _extract_function_info node2 bytes2 text2 = Ok f2 ->
  _get_function_name node1 bytes1 = Ok (lit "unknown")
  /\ FunctionInfo.name f1 = lit "unknown"
  /\ FunctionInfo.name f2 = lit "unknown"
  /\ str_eqb (FunctionInfo.name f1) (FunctionInfo.name f2) = true.
Proof.
  intros H1 H2 E1 E2.
  assert (N1 : _get_function_name node1 bytes1 = Ok (lit "unknown")).
  { unfold _get_function_name.
    now rewrite (no_direct_name_identifiers H1). }
  assert (N2 : _get_function_name node2 bytes2 = Ok (lit "unknown")).
  { unfold _get_function_name.
    now rewrite (no_direct_name_identifiers H2). }
  rewrite (@extract_function_info_name _ _ _ _ _ N1 E1).
  rewrite (@extract_function_info_name _ _ _ _ _ N2 E2).
  auto using str_eqb_refl.
Qed.

(** ** Line numbers *)

Lemma octet_value (c : N) : (c < 128)%N -> Byte.to_N (Utf8.octet c) = c.
Proof.
  intros H. unfold Utf8.octet.
  rewrite N.mod_small by lia.
  destruct (Byte.of_N c) as [b|] eqn:E.
  - now apply Byte.to_of_N.
  - apply Byte.of_N_None_iff in E. lia.
Qed.

Lemma encode_ascii (s : str) :
  Forall (fun c => (c < 128)%N) s ->
  Utf8.encode s = Ok (map Utf8.octet s).
Proof.
  induction 1 as [|c s Hc Hs IH]; simpl; [reflexivity|].
  unfold Utf8.encode_char.
  destruct (N.ltb_spec c 128) as [_|Hge]; [|lia].
  simpl. rewrite IH. reflexivity.
Qed.

Lemma newline_bytes_ascii (s : str) :
  Forall (fun c => (c < 128)%N) s ->
  count_occ Byte.byte_eq_dec (map Utf8.octet s) "010"%byte
  = count_newlines s.
Proof.
  unfold count_newlines.
  induction 1 as [|c s Hc Hs IH]; simpl; [reflexivity|].
  unfold char_eqb, NL in *.
  destruct (Byte.byte_eq_dec (Utf8.octet c) "010"%byte) as [E|E];
    destruct (N.eqb_spec c 10) as [E'|E']; simpl; auto.
  - apply (f_equal Byte.to_N) in E. rewrite octet_value in E by assumption.
    now elim E'.
  - subst c. now elim E.
Qed.

(** On a text of one-byte characters the recorded line number is the one
    the specification describes. *)
Lemma line_number_ascii (func_node : Node) (source_bytes : list byte)
  (source_str : str) (f : FunctionInfo.t) :
  Forall (fun c => (c < 128)%N) source_str ->
  Utf8.encode source_str = Ok source_bytes ->
  _extract_function_info func_node source_bytes source_str = Ok f ->
  FunctionInfo.line_number f
  = line_of_byte source_bytes (FunctionInfo.byte_position f).
Proof.
  intros Hascii Henc. rewrite (encode_ascii Hascii) in Henc.
  injection Henc as <-.
  unfold _extract_function_info.
  destruct (_get_function_name _ _); simpl; [|discriminate].
  destruct (_get_function_signature _ _); simpl; [|discriminate].
  destruct (match find _ _ with Some _ => _ | None => _ end); simpl;
    [|discriminate].
  intros [= <-]. simpl. unfold line_of_byte, upto.
  rewrite firstn_map. f_equal. symmetry.
  apply newline_bytes_ascii.
  rewrite Forall_forall in Hascii |- *. intros c Hc. apply Hascii.
  rewrite <- (firstn_skipn (TreeSitter.start_byte func_node) source_str).
  apply in_or_app. now left.
Qed.

(** C9 at a text with characters of more than one byte: a comment of four
    two-byte letters, then [int], a newline and [f(){}].  The function
    starts at byte 12 with no newline before it, on line 1; the recorded
    line number is 2, because the byte offset 12 is used as an index into
    the characters, and the twelve first characters reach past the
    newline. *)
Lemma line_number_off_on_multibyte_text :
  exists f,
    extract_structure Samples.parse Samples.accented_text
    = Ok {| functions := [f] |}
    /\ Utf8.encode Samples.accented_text
       = Ok (Samples.bytes_of Samples.accented_text)
    /\ FunctionInfo.byte_position f = 12
    /\ FunctionInfo.line_number f = 2
    /\ line_of_byte (Samples.bytes_of Samples.accented_text)
         (FunctionInfo.byte_position f) = 1.
Proof.
  eexists. split; [vm_compute; reflexivity|].
  repeat split; vm_compute; reflexivity.
Qed.

(** ** The sample texts *)

Example plain_structure_extracted :
  extract_structure Samples.parse Samples.plain_text
  = Ok Samples.plain_structure.
Proof. vm_compute. reflexivity. Qed.

Example nested_structure_extracted :
  extract_structure Samples.parse Samples.nested_text
  = Ok Samples.nested_structure.
Proof. vm_compute. reflexivity. Qed.

Example pointer_structures_extracted :
  extract_structure Samples.parse Samples.pointer_f_text
  = Ok {| functions := [Samples.pointer_f_info] |}
  /\ extract_structure Samples.parse Samples.pointer_g_text
     = Ok {| functions := [Samples.pointer_g_info] |}.
Proof. split; vm_compute; reflexivity. Qed.

(** The nested function of [nested_text] with four fragments: the loop is
    a slot of both functions, and the fragments land in the order D, B
    before it. *)
Example nested_injection :
  validate_and_inject Samples.parse Samples.nested_text Samples.nested_text
    Samples.four_fragments
  = Ok (true,
        Some (lit "/*A*/" ++ [NL] ++ lit "void f(){/*C*/" ++ [NL]
              ++ lit "void g(){/*D*/" ++ [NL] ++ lit "/*B*/" ++ [NL]
              ++ lit "for(;;){}}}"),
        None).
Proof. vm_compute. reflexivity. Qed.

(** ** Where the code departs from the specification *)

(** C2, as the specification words it, fails on a text whose include line
    follows a line of code: the leading run of include lines is empty,
    yet the header holds both lines. *)
Lemma header_reaches_past_leading_run :
  split_header_body Samples.include_after_code
  = (lit "int x;" ++ [NL] ++ lit "#include <a.h>", lit "int y;")
  /\ leading_include_split Samples.include_after_code
     = ([], Samples.include_after_code)
  /\ split_header_body Samples.include_after_code
     <> leading_include_split Samples.include_after_code.
Proof.
  split; [vm_compute; reflexivity|].
  split; [vm_compute; reflexivity|].
  vm_compute. discriminate.
Qed.

(** C3, as the specification words it, fails for a fragment of two
    spaces: the planner emits the point of its slot. *)
Lemma blank_fragment_still_gets_point :
  py_getitem Samples.blank_fragment 1 = Ok (PyStr (lit "  "))
  /\ strip (lit "  ") = []
  /\ exists point,
       plan_injection_points Samples.plain_structure Samples.blank_fragment
       = Ok [point]
       /\ InjectionPoint.spec_index point = 1
       /\ plan_injection_points Samples.plain_structure
            Samples.blank_fragment <> Ok [].
Proof.
  split; [reflexivity|]. split; [reflexivity|].
  eexists. split; [vm_compute; reflexivity|].
  split; [reflexivity|]. vm_compute. discriminate.
Qed.

(** C4, as the specification words it, fails: a fragment sequence with a
    number in place of the predicates is injected, and one with a number
    in place of a fragment is accepted and returns the text as it was;
    [validate_spec_structure] rejects both. *)
Lemma malformed_fragments_accepted :
  (~ well_formed_spec Samples.number_for_predicates
   /\ fst (validate_spec_structure Samples.number_for_predicates) = false
   /\ validate_and_inject Samples.parse Samples.plain_text
        Samples.plain_text Samples.number_for_predicates
      = Ok (true,
            Some (lit "/*@ ensures x; */" ++ [NL] ++ Samples.plain_text),
            None))
  /\ (~ well_formed_spec Samples.number_for_fragment
      /\ fst (validate_spec_structure Samples.number_for_fragment) = false
      /\ validate_and_inject Samples.parse Samples.plain_text
           Samples.plain_text Samples.number_for_fragment
         = Ok (true, Some Samples.plain_text, None)).
Proof.
  split; (split; [|split; [reflexivity | vm_compute; reflexivity]]).
  - intros (preds & rest & H & _). discriminate.
  - intros (preds & rest & [= <- <-] & _ & Hrest).
    inversion Hrest; discriminate.
Qed.

(** C6, as the specification words it, fails on the structure of
    [nested_text]: the loop belongs to both functions, and its two points
    share byte position 18. *)
Lemma equal_positions_not_strict :
  exists points,
    plan_injection_points Samples.nested_structure Samples.four_fragments
    = Ok points
    /\ map InjectionPoint.byte_position points = [18; 18; 9; 0]
    /\ ~ strictly_descending points.
Proof.
  eexists. split; [vm_compute; reflexivity|].
  split; [reflexivity|].
  intros H. inversion H as [|? ? _ Hall]; subst.
  inversion Hall as [|? ? Hlt _]; subst.
  simpl in Hlt. lia.
Qed.

(** ** The theorems at the sample texts *)

Lemma pointer_function_no_direct_name :
  no_direct_name (Samples.pointer_function 0).
Proof.
  intros child Hin Hty.
  destruct Hin as [<-|[<-|[<-|[]]]]; discriminate Hty.
Defined.

Lemma mismatch_fails_before_injection_witness :
  exists diag,
    _compare_structures {| functions := [Samples.pointer_f_info] |}
      {| functions := [Samples.pointer_g_info] |} = (false, Some diag)
    /\ validate_and_inject Samples.parse Samples.pointer_f_text
         Samples.pointer_g_text Samples.number_for_predicates
       = Ok (false, None, Some (lit "Validation failed: " ++ diag)).
Proof.
  refine (proj1 (@mismatch_fails_before_injection Samples.parse
                   Samples.pointer_f_text Samples.pointer_g_text
                   Samples.number_for_predicates
                   {| functions := [Samples.pointer_f_info] |}
                   {| functions := [Samples.pointer_g_info] |} _ _) _);
    vm_compute; reflexivity.
Defined.

Lemma empty_fragments_pass_through_witness :
  exists annotated,
    validate_and_inject Samples.parse Samples.plain_text Samples.plain_text
      (PyList [PyList []]) = Ok (true, Some annotated, None)
    /\ annotated = Samples.plain_text
    /\ strip (collapse_blank_lines 0 annotated)
       = strip (collapse_blank_lines 0 Samples.plain_text).
Proof.
  apply (@empty_fragments_pass_through Samples.parse Samples.plain_text
           Samples.plain_structure).
  vm_compute. reflexivity.
Defined.

Lemma header_ends_at_last_include_witness :
  split_header_body Samples.include_after_code
  = (join [NL] (firstn 2 (split_lines Samples.include_after_code)),
     join [NL] (skipn 2 (split_lines Samples.include_after_code)))
  /\ split_header_body Samples.plain_text = ([], Samples.plain_text)
  /\ split_header_body Samples.include_on_top
     = leading_include_split Samples.include_on_top
  /\ forallb (fun line => negb (matches_include line))
       (drop_while matches_include (split_lines Samples.include_on_top))
     = true.
Proof.
  split; [|split; [|split]].
  - apply (proj1 (header_ends_at_last_include Samples.include_after_code)
             1 (lit "#include <a.h>")); [reflexivity | reflexivity |].
    intros j line' Hlt Hj.
    destruct j as [|[|[|j]]]; [lia | lia | | destruct j; discriminate Hj].
    injection Hj as <-. reflexivity.
  - apply (proj1 (proj2 (header_ends_at_last_include Samples.plain_text))).
    intros line [<-|[]]. reflexivity.
  - apply (proj1 (proj2 (proj2 (header_ends_at_last_include
                                  Samples.include_on_top)))).
    reflexivity.
  - apply (proj2 (proj2 (proj2 (header_ends_at_last_include
                                  Samples.include_on_top)))).
    vm_compute. reflexivity.
Defined.

Lemma blank_fragment_planned_but_not_spliced_witness :
  exists points,
    plan_injection_points Samples.plain_structure Samples.blank_fragment
    = Ok points
    /\ In (InjectionPoint.make function_point 0 1 1
             (lit "function " ++ quoted (lit "f"))) points
    /\ forall result,
         splice_point Samples.blank_fragment result
           (InjectionPoint.make function_point 0 1 1
              (lit "function " ++ quoted (lit "f"))) = Ok result.
Proof.
  destruct (@blank_fragment_planned_but_not_spliced Samples.plain_structure
              [PyList []; PyStr (lit "  ")] 1 (lit "  ")
              (InjectionPoint.make function_point 0 1 1
                 (lit "function " ++ quoted (lit "f")))
              eq_refl eq_refl (le_n 1) eq_refl)
    as (_ & points & Hplan & Hin & _ & Hsplice).
  exists points. auto.
Defined.

Lemma fragment_check_is_separate_witness :
  validate_spec_structure Samples.one_fragment = (true, None)
  /\ (exists msg,
        validate_spec_structure Samples.number_for_fragment
        = (false, Some msg))
  /\ validate_and_inject Samples.parse Samples.plain_text Samples.plain_text
       Samples.number_for_fragment
     = match inject_acsl_specs_treesitter Samples.parse
               Samples.number_for_fragment Samples.plain_text with
       | Ok injected => Ok (true, Some injected, None)
       | Raise e =>
           Ok (false, None, Some (lit "Injection failed: " ++ exn_str e))
       end.
Proof.
  split; [|split].
  - apply (proj1 (fragment_check_is_separate Samples.parse
                    Samples.one_fragment)).
    exists [], [PyStr (lit "/*@ ensures x; */")].
    repeat constructor.
  - apply (proj1 (proj2 (fragment_check_is_separate Samples.parse
                           Samples.number_for_fragment))).
    intros (preds & rest & H & _ & Hrest).
    injection H as <- <-. inversion Hrest. discriminate.
  - apply (proj2 (proj2 (fragment_check_is_separate Samples.parse
                           Samples.number_for_fragment))
             Samples.plain_text Samples.plain_text
             Samples.plain_structure Samples.plain_structure);
      vm_compute; reflexivity.
Defined.

Lemma planner_output_descending_witness :
  exists points result,
    plan_injection_points Samples.nested_structure Samples.four_fragments
    = Ok points
    /\ descending points
    /\ splice_points Samples.four_fragments (firstn 2 points)
         Samples.nested_text = Ok result
    /\ upto 9 result = upto 9 Samples.nested_text.
Proof.
  destruct (proj1 (planner_output_descending Samples.nested_structure
                     [PyList []; PyStr (lit "/*A*/"); PyStr (lit "/*B*/");
                      PyStr (lit "/*C*/"); PyStr (lit "/*D*/")]))
    as [points Hplan].
  destruct (proj2 (planner_output_descending Samples.nested_structure _)
              points Hplan) as (Hdesc & _ & Hprefix).
  exists points. eexists.
  split; [exact Hplan|]. split; [exact Hdesc|].
  assert (E : points
              = [InjectionPoint.make loop_point 18 1 2
                   (lit "loop 0 in function 'f' (for loop)");
                 InjectionPoint.make loop_point 18 1 4
                   (lit "loop 0 in function 'g' (for loop)")]
                ++ InjectionPoint.make function_point 9 1 3
                     (lit "function 'g'")
                :: [InjectionPoint.make function_point 0 1 1
                      (lit "function 'f'")]).
  { vm_compute in Hplan. injection Hplan as <-. reflexivity. }
  assert (Hlen : 9 <= List.length Samples.nested_text)
    by (vm_compute; lia).
  rewrite E. simpl firstn.
  split; [vm_compute; reflexivity|].
  exact (Hprefix _ _ _ Samples.nested_text _ E Hlen eq_refl).
Defined.

Lemma missing_declarator_named_unknown_witness :
  _get_function_name (Samples.pointer_function 0)
    (Samples.bytes_of Samples.pointer_f_text) = Ok (lit "unknown")
  /\ FunctionInfo.name Samples.pointer_f_info = lit "unknown"
  /\ FunctionInfo.name Samples.pointer_g_info = lit "unknown"
  /\ str_eqb (FunctionInfo.name Samples.pointer_f_info)
       (FunctionInfo.name Samples.pointer_g_info) = true.
Proof.
  apply (@missing_declarator_named_unknown
           (Samples.pointer_function 0) (Samples.pointer_function 0)
           (Samples.bytes_of Samples.pointer_f_text)
           (Samples.bytes_of Samples.pointer_g_text)
           Samples.pointer_f_text Samples.pointer_g_text
           Samples.pointer_f_info Samples.pointer_g_info
           pointer_function_no_direct_name pointer_function_no_direct_name);
    vm_compute; reflexivity.
Defined.

(** * Further properties of the sources *)

(** ** Structural parity *)

Lemma compare_loops_complete (fname : str) (l1 l2 : list LoopInfo.t) :
  Forall2 loops_agree l1 l2 ->
  forall j, compare_loops fname j l1 l2 = None.
Proof.
  induction 1 as [|a b l1 l2 [Ht Hh] _ IH]; intros j; simpl; [reflexivity|].
  rewrite Ht, Hh, !str_eqb_refl. simpl. apply IH.
Qed.

Lemma compare_functions_complete (l1 l2 : list FunctionInfo.t) :
  Forall2 functions_agree l1 l2 ->
  forall i, compare_functions i l1 l2 = None.
Proof.
  induction 1 as [|f g l1 l2 (Hn & Hs & Hl) _ IH]; intros i; simpl;
    [reflexivity|].
  rewrite Hn, Hs, !str_eqb_refl, (Forall2_length Hl), Nat.eqb_refl. simpl.
  rewrite <- Hn, (compare_loops_complete _ Hl). apply IH.
Qed.

Lemma success_gives_same_shape (skel comp : CodeStructure) :
  _compare_structures skel comp = (true, None) -> same_shape skel comp.
Proof.
  unfold _compare_structures, same_shape.
  destruct (List.length (functions skel) =? List.length (functions comp))
    eqn:Ec; simpl; [|discriminate].
  apply Nat.eqb_eq in Ec.
  pose proof (compare_functions_sound (functions skel) (functions comp)
                0 Ec) as H.
  destruct (compare_functions 0 (functions skel) (functions comp));
    [discriminate | auto].
Qed.

Lemma same_shape_gives_success (skel comp : CodeStructure) :
  same_shape skel comp -> _compare_structures skel comp = (true, None).
Proof.
  unfold _compare_structures, same_shape.
  intros H. rewrite (Forall2_length H), Nat.eqb_refl. simpl.
  now rewrite (compare_functions_complete H).
Qed.

(** The comparator answers [(True, None)] exactly on structures that
    agree in function count and, function by function, in name,
    signature, loop count and, loop by loop, in kind and header; byte
    positions and line numbers play no part. *)
Theorem compare_structures_succeeds_iff_same_shape
  (skel comp : CodeStructure) :
  _compare_structures skel comp = (true, None) <-> same_shape skel comp.
Proof.
  split.
  - apply success_gives_same_shape.
  - apply same_shape_gives_success.
Qed.

Lemma loops_agree_sym (l1 l2 : list LoopInfo.t) :
  Forall2 loops_agree l1 l2 -> Forall2 loops_agree l2 l1.
Proof.
  induction 1 as [|a b ? ? [Ht Hh]]; constructor; [split|]; auto.
Qed.

Lemma loops_agree_trans (l1 l2 l3 : list LoopInfo.t) :
  Forall2 loops_agree l1 l2 -> Forall2 loops_agree l2 l3 ->
  Forall2 loops_agree l1 l3.
Proof.
  intros H; revert l3.
  induction H as [|a b ? ? [Ht Hh] _ IH]; intros l3 H3;
    inversion H3 as [|? c ? ? [Ht' Hh']]; subst; constructor; auto.
  split; congruence.
Qed.

Lemma same_shape_sym (a b : CodeStructure) :
  same_shape a b -> same_shape b a.
Proof.
  unfold same_shape.
  induction 1 as [|f g ? ? (Hn & Hs & Hl)]; constructor; auto.
  repeat split; auto using loops_agree_sym.
Qed.

Lemma same_shape_trans (a b c : CodeStructure) :
  same_shape a b -> same_shape b c -> same_shape a c.
Proof.
  unfold same_shape. intros H. generalize (functions c). clear c.
  induction H as [|f g ? ? (Hn & Hs & Hl) _ IH]; intros l3 H3;
    inversion H3 as [|? h ? ? (Hn' & Hs' & Hl')]; subst; constructor; auto.
  repeat split; try congruence. eauto using loops_agree_trans.
Qed.

(** Success of the comparator is symmetric and transitive: a completion
    that matches a skeleton is matched by it, and two completions of one
    skeleton match each other. *)
Theorem compare_structures_symmetric_transitive (a b c : CodeStructure) :
  (_compare_structures a b = (true, None) ->
   _compare_structures b a = (true, None))
  /\ (_compare_structures a b = (true, None) ->
      _compare_structures b c = (true, None) ->
      _compare_structures a c = (true, None)).
Proof.
  split.
  - intros H. apply same_shape_gives_success, same_shape_sym.
    now apply success_gives_same_shape.
  - intros Hab Hbc. apply same_shape_gives_success.
    apply same_shape_trans with (b := b); now apply success_gives_same_shape.
Qed.

Lemma map_eq_Forall2 {A B} (f : A -> B) (l1 l2 : list A) :
  map f l1 = map f l2 <-> Forall2 (fun x y => f x = f y) l1 l2.
Proof.
  split.
  - revert l2; induction l1 as [|x l1 IH]; intros [|y l2] H;
      simpl in H; try discriminate; constructor; inversion H; auto.
  - induction 1; simpl; congruence.
Qed.

Lemma loops_agree_maps (l1 l2 : list LoopInfo.t) :
  Forall2 loops_agree l1 l2
  <-> map LoopInfo.type l1 = map LoopInfo.type l2
      /\ map LoopInfo.header l1 = map LoopInfo.header l2.
Proof.
  rewrite !map_eq_Forall2. split.
  - induction 1 as [|a b ? ? [Ht Hh] _ [IH1 IH2]];
      split; constructor; auto.
  - intros [H1 H2]. induction H1 as [|a b ? ? Ht _ IH];
      inversion H2; subst; constructor; [split|]; auto.
Qed.

(** Two structures have equal dictionaries exactly when the comparator
    accepts them: [to_dict] keeps what the comparator looks at and drops
    the positions and line numbers. *)
Theorem to_dict_equal_iff_compare_succeeds (skel comp : CodeStructure) :
  to_dict skel = to_dict comp
  <-> _compare_structures skel comp = (true, None).
Proof.
  split.
  - intros E. apply same_shape_gives_success. revert E.
    unfold to_dict, same_shape.
    intros [= _ H]. apply map_eq_Forall2 in H.
    induction H as [|f g ? ? E _ IH]; constructor; [|assumption].
    injection E as En Es _ Et Eh.
    repeat split; auto. apply loops_agree_maps. auto.
  - intros H. apply success_gives_same_shape in H. revert H.
    unfold to_dict, same_shape.
    intros H. rewrite (Forall2_length H). f_equal.
    induction H as [|f g ? ? (Hn & Hs & Hl) _ IH]; simpl; [reflexivity|].
    rewrite IH, Hn, Hs, (Forall2_length Hl).
    apply loops_agree_maps in Hl. destruct Hl as [-> ->]. reflexivity.
Qed.

(** ** The extractor *)

Lemma Node_children_ind (P : Node -> Prop) :
  (forall t a b cs, Forall P cs -> P (TreeSitter.mkNode t a b cs)) ->
  forall n, P n.
Proof.
  intros H. fix IH 1. intros [t a b cs]. apply H.
  induction cs as [|c cs IHcs]; constructor; [apply IH | exact IHcs].
Qed.

Lemma find_all_nodes_have_type (node_type : string) (node : Node) :
  Forall (fun n => has_type node_type n = true)
    (_find_all_nodes_of_type node node_type).
Proof.
  induction node as [t a b cs IH] using Node_children_ind.
  simpl. apply Forall_app. split.
  - unfold has_type. simpl. destruct (String.eqb t node_type) eqn:E;
      repeat constructor. simpl. exact E.
  - induction IH as [|c cs Hc _ IHcs]; simpl; [constructor|].
    apply Forall_app. auto.
Qed.

Lemma map_exc_Forall2 {A B} (f : A -> exc B) (l : list A) (l' : list B) :
  map_exc f l = Ok l' -> Forall2 (fun x y => f x = Ok y) l l'.
Proof.
  revert l'; induction l as [|x l IH]; simpl; intros l' H.
  - injection H as <-. constructor.
  - destruct (f x) as [y|] eqn:E; simpl in H; [|discriminate].
    destruct (map_exc f l) as [ys|]; simpl in H; [|discriminate].
    injection H as <-. constructor; auto.
Qed.

Lemma sort_key_perm {A} (key : A -> nat) (l : list A) :
  Permutation (sort_key key l) l.
Proof. apply sort_by_perm. Qed.

Lemma sort_key_sorted {A} (key : A -> nat) (l : list A) :
  StronglySorted (fun p q => key p <= key q) (sort_key key l).
Proof.
  apply sort_by_sorted.
  - intros x y H. now apply Nat.leb_le.
  - intros x y H. apply Nat.leb_gt in H. lia.
  - intros x y z; lia.
Qed.

(** The loop nodes below [body], kind by kind, as the extractor visits
    them. *)
Lemma extract_loops_from_body_spec (body : Node) (source_bytes : list byte)
  (source_str : str) (loops : list LoopInfo.t) :
  _extract_loops_from_body body source_bytes source_str = Ok loops ->
  exists unsorted,
    loops = sort_key LoopInfo.byte_position unsorted
    /\ Forall2 (fun '(loop_node, loop_type) info =>
                  _extract_loop_info loop_node source_bytes source_str
                    loop_type = Ok info)
         (flat_map (fun loop_type =>
                      map (fun n => (n, loop_type))
                        (_find_all_nodes_of_type body loop_type))
            loop_types)
         unsorted.
Proof.
  unfold _extract_loops_from_body. intros H.
  destruct (map_exc _ _) as [unsorted|] eqn:E; simpl in H; [|discriminate].
  injection H as <-. exists unsorted. split; [reflexivity|].
  apply map_exc_Forall2 in E.
  eapply Forall2_impl; [|exact E]. intros [n t] info. auto.
Qed.

Lemma extract_loop_info_position (loop_node : Node)
  (source_bytes : list byte) (source_str : str) (loop_type : string)
  (info : LoopInfo.t) :
  _extract_loop_info loop_node source_bytes source_str loop_type = Ok info ->
  LoopInfo.byte_position info = TreeSitter.start_byte loop_node
  /\ LoopInfo.line_number info
     = count_newlines (upto (TreeSitter.start_byte loop_node) source_str) + 1.
Proof.
  unfold _extract_loop_info.
  destruct (_get_loop_header _ _ _); simpl; [|discriminate].
  intros [= <-]. auto.
Qed.

Lemma extract_function_info_fields (func_node : Node)
  (source_bytes : list byte) (source_str : str) (f : FunctionInfo.t) :
  _extract_function_info func_node source_bytes source_str = Ok f ->
  _get_function_name func_node source_bytes = Ok (FunctionInfo.name f)
  /\ _get_function_signature func_node source_bytes
     = Ok (FunctionInfo.signature f)
  /\ FunctionInfo.byte_position f = TreeSitter.start_byte func_node
  /\ FunctionInfo.line_number f
     = count_newlines (upto (TreeSitter.start_byte func_node) source_str) + 1
  /\ match find (has_type "compound_statement")
             (TreeSitter.children func_node) with
     | Some body =>
         _extract_loops_from_body body source_bytes source_str
         = Ok (FunctionInfo.loops f)
     | None => FunctionInfo.loops f = []
     end.
Proof.
  unfold _extract_function_info.
  destruct (_get_function_name _ _) as [name|]; simpl; [|discriminate].
  destruct (_get_function_signature _ _) as [sig|]; simpl; [|discriminate].
  destruct (find _ _) as [body|].
  - destruct (_extract_loops_from_body _ _ _) as [loops|]; simpl;
      [|discriminate].
    intros [= <-]. simpl. auto.
  - simpl. intros [= <-]. simpl. auto.
Qed.

Lemma preorder_unfold (node : Node) :
  preorder node = node :: flat_map preorder (TreeSitter.children node).
Proof. destruct node; reflexivity. Qed.

(** The finder returns the nodes of the requested type among all nodes
    of the tree, in pre-order. *)
Lemma find_all_nodes_filter_preorder (node_type : string) (node : Node) :
  _find_all_nodes_of_type node node_type
  = filter (has_type node_type) (preorder node).
Proof.
  induction node as [t a b cs IH] using Node_children_ind.
  rewrite preorder_unfold.
  cbn [_find_all_nodes_of_type filter TreeSitter.children TreeSitter.type].
  assert (E : flat_map (fun child => _find_all_nodes_of_type child node_type)
                cs
              = filter (has_type node_type) (flat_map preorder cs)).
  { induction IH as [|c cs Hc _ IHcs]; [reflexivity|].
    cbn [flat_map]. now rewrite filter_app, Hc, IHcs. }
  rewrite E. unfold has_type at 2. cbn [TreeSitter.type].
  destruct (String.eqb t node_type); reflexivity.
Qed.

Lemma in_preorder_iff (root node : Node) :
  In node (preorder root) <-> in_tree root node.
Proof.
  split.
  - revert node.
    induction root as [t a b cs IH] using Node_children_ind.
    intros node. rewrite preorder_unfold. intros [<- | Hin];
      [constructor|].
    apply in_flat_map in Hin. destruct Hin as (child & Hchild & Hin).
    rewrite Forall_forall in IH.
    apply in_tree_child with (child := child);
      [exact Hchild | now apply IH].
  - induction 1 as [root | root child node Hchild _ IH];
      rewrite preorder_unfold; [now left|].
    right. apply in_flat_map. eauto.
Qed.

Lemma loop_nodes_by_type (l : list Node) :
  Permutation
    (filter (has_type "for_statement") l
     ++ filter (has_type "while_statement") l
     ++ filter (has_type "do_statement") l)
    (filter is_loop_node l).
Proof.
  induction l as [|x l IH]; [reflexivity|].
  cbn [filter]. unfold is_loop_node at 1.
  destruct (has_type "for_statement" x) eqn:Ef.
  - assert (Hw : has_type "while_statement" x = false)
      by (unfold has_type in *; apply String.eqb_eq in Ef; now rewrite Ef).
    assert (Hd : has_type "do_statement" x = false)
      by (unfold has_type in *; apply String.eqb_eq in Ef; now rewrite Ef).
    rewrite Hw, Hd. cbn [orb app]. apply perm_skip. exact IH.
  - destruct (has_type "while_statement" x) eqn:Ew.
    + assert (Hd : has_type "do_statement" x = false)
        by (unfold has_type in *; apply String.eqb_eq in Ew;
            now rewrite Ew).
      rewrite Hd. cbn [orb].
      symmetry. apply Permutation_cons_app. symmetry. exact IH.
    + cbn [orb]. destruct (has_type "do_statement" x); [|exact IH].
      rewrite app_assoc. symmetry. apply Permutation_cons_app.
      rewrite <- app_assoc. symmetry. exact IH.
Qed.

(** [extract_structure] records one function per [function_definition]
    node of the tree, those nodes taken among all nodes of the tree in
    pre-order, each at the start byte of its node: no such node is
    missed, at whatever depth it lies, and nothing else is recorded. *)
Theorem extracted_functions_follow_the_tree
  (parse : list byte -> Node) (c_code : str) (source_bytes : list byte)
  (structure : CodeStructure) :
  Utf8.encode c_code = Ok source_bytes ->
  extract_structure parse c_code = Ok structure ->
  map FunctionInfo.byte_position (functions structure)
  = map TreeSitter.start_byte
      (filter (has_type "function_definition")
         (preorder (parse source_bytes)))
  /\ forall node,
       in_tree (parse source_bytes) node ->
       has_type "function_definition" node = true ->
       In (TreeSitter.start_byte node)
         (map FunctionInfo.byte_position (functions structure)).
Proof.
  intros Henc. unfold extract_structure. rewrite Henc. simpl.
  destruct (map_exc _ _) as [fs|] eqn:E; simpl; [|discriminate].
  intros [= <-]. simpl. apply map_exc_Forall2 in E.
  rewrite find_all_nodes_filter_preorder in E.
  assert (Hmap : map FunctionInfo.byte_position fs
                 = map TreeSitter.start_byte
                     (filter (has_type "function_definition")
                        (preorder (parse source_bytes)))).
  { induction E as [|n f ns fs' Hf _ IH]; simpl; [reflexivity|].
    apply extract_function_info_fields in Hf.
    destruct Hf as (_ & _ & -> & _). now rewrite IH. }
  split; [exact Hmap|].
  intros node Hin Hty. rewrite Hmap. apply in_map.
  apply filter_In. split; [now apply in_preorder_iff | exact Hty].
Qed.

(** The loops recorded for a function are sorted by byte position, and
    their positions are the start bytes of the [for], [while] and [do]
    nodes among all nodes of the function's body, at any depth: none is
    missed and nothing else is recorded.  A function without a body block
    has no loops. *)
Theorem extracted_loops_sorted_by_position
  (func_node : Node) (source_bytes : list byte) (source_str : str)
  (f : FunctionInfo.t) :
  _extract_function_info func_node source_bytes source_str = Ok f ->
  StronglySorted
    (fun a b => LoopInfo.byte_position a <= LoopInfo.byte_position b)
    (FunctionInfo.loops f)
  /\ match find (has_type "compound_statement")
             (TreeSitter.children func_node) with
     | Some body =>
         Permutation (map LoopInfo.byte_position (FunctionInfo.loops f))
           (map TreeSitter.start_byte (filter is_loop_node (preorder body)))
         /\ forall node,
              in_tree body node ->
              is_loop_node node = true ->
              In (TreeSitter.start_byte node)
                (map LoopInfo.byte_position (FunctionInfo.loops f))
     | None => FunctionInfo.loops f = []
     end.
Proof.
  intros H. apply extract_function_info_fields in H.
  destruct H as (_ & _ & _ & _ & H).
  destruct (find _ _) as [body|]; [|rewrite H; split; [constructor | auto]].
  apply extract_loops_from_body_spec in H.
  destruct H as (unsorted & -> & H).
  split; [apply sort_key_sorted|].
  assert (P : Permutation
                (map LoopInfo.byte_position
                   (sort_key LoopInfo.byte_position unsorted))
                (map TreeSitter.start_byte
                   (filter is_loop_node (preorder body)))).
  { rewrite (Permutation_map _ (sort_key_perm _ unsorted)).
    rewrite <- (Permutation_map _ (loop_nodes_by_type (preorder body))).
    rewrite <- !find_all_nodes_filter_preorder.
    unfold loop_types in H. simpl in H. rewrite app_nil_r in H.
    assert (E : map LoopInfo.byte_position unsorted
                = map (fun p : Node * string =>
                         TreeSitter.start_byte (fst p))
                    (map (fun n => (n, "for_statement"%string))
                       (_find_all_nodes_of_type body "for_statement")
                     ++ map (fun n => (n, "while_statement"%string))
                          (_find_all_nodes_of_type body "while_statement")
                     ++ map (fun n => (n, "do_statement"%string))
                          (_find_all_nodes_of_type body "do_statement"))).
    { induction H as [|[n t] info ? ? Hi _ IH]; simpl; [reflexivity|].
      apply extract_loop_info_position in Hi. destruct Hi as [-> _].
      now rewrite IH. }
    rewrite E, !map_app, !map_map. simpl. reflexivity. }
  split; [exact P|].
  intros node Hin Hloop.
  apply (Permutation_in _ (Permutation_sym P)), in_map.
  apply filter_In. split; [now apply in_preorder_iff | exact Hloop].
Qed.

(** *** White space in signatures and headers *)

Lemma drop_while_space_head (s : str) :
  starts_with_space (drop_while is_space s) = false.
Proof.
  induction s as [|c t IH]; simpl; [reflexivity|].
  destruct (is_space c) eqn:E; [exact IH | simpl; exact E].
Qed.

Lemma take_drop_while_app {A} (p : A -> bool) (l : list A) :
  take_while p l ++ drop_while p l = l.
Proof.
  induction l as [|x l IH]; simpl; [reflexivity|].
  destruct (p x); simpl; [now rewrite IH | reflexivity].
Qed.








(** *** Line numbers *)





(** ** The planner, continued *)

Lemma firstn_seq (n start len : nat) :
  firstn n (seq start len) = seq start (Nat.min n len).
Proof.
  revert start len; induction n as [|n IH]; intros start [|len]; simpl;
    try reflexivity.
  now rewrite IH.
Qed.

Lemma loop_slots_indices (func : FunctionInfo.t) (loops : list LoopInfo.t) :
  forall loop_idx idx,
    map InjectionPoint.spec_index (loop_slots func loop_idx loops idx)
    = seq idx (List.length loops).
Proof.
  induction loops as [|loop rest IH]; intros loop_idx idx; simpl;
    [reflexivity|].
  now rewrite IH.
Qed.

Lemma function_slots_indices (funcs : list FunctionInfo.t) :
  forall idx,
    map InjectionPoint.spec_index (function_slots funcs idx)
    = seq idx (List.length (function_slots funcs idx)).
Proof.
  induction funcs as [|func rest IH]; intros idx; simpl; [reflexivity|].
  rewrite map_app, loop_slots_indices, IH, length_app, loop_slots_length.
  rewrite seq_app. reflexivity.
Qed.

(** The points of a plan use the fragments [1 .. k], [k] the number of
    points, each of them once: no fragment is injected twice and none is
    passed over in between. *)
Theorem planned_points_use_each_fragment_once
  (structure : CodeStructure) (l : list value)
  (points : list InjectionPoint.t) :
  plan_injection_points structure (PyList l) = Ok points ->
  Permutation (map InjectionPoint.spec_index points)
    (seq 1 (List.length points))
  /\ NoDup (map InjectionPoint.spec_index points).
Proof.
  intros H.
  rewrite (@plan_injection_points_slots (PyList l) _ eq_refl) in H.
  injection H as <-.
  assert (P : Permutation
                (map InjectionPoint.spec_index
                   (sort_key_reverse InjectionPoint.byte_position
                      (firstn (List.length l - 1) (slots structure))))
                (seq 1 (Nat.min (List.length l - 1)
                          (List.length (slots structure))))).
  { rewrite (Permutation_map _ (sort_key_reverse_perm _ _)).
    unfold slots.
    now rewrite <- firstn_map, function_slots_indices, firstn_seq. }
  split.
  - rewrite (Permutation_length (sort_key_reverse_perm _ _)), length_firstn.
    exact P.
  - apply (Permutation_NoDup (Permutation_sym P)), seq_NoDup.
Qed.

(** The planner fails only by asking an object without a length for its
    length, which it does at the first function: on a structure without
    functions it returns no points for any object, on any other it raises
    the [TypeError] of [len]; a sized object never makes it fail. *)
Theorem planner_raises_only_without_len
  (structure : CodeStructure) (spec : value) :
  (functions structure = [] -> plan_injection_points structure spec = Ok [])
  /\ (forall n, py_len spec = Ok n ->
        exists points, plan_injection_points structure spec = Ok points)
  /\ (forall e, py_len spec = Raise e ->
        functions structure <> [] ->
        plan_injection_points structure spec = Raise e
        /\ exn_type e = TypeError).
Proof.
  split; [|split].
  - unfold plan_injection_points. now intros ->.
  - intros n Hn. eexists. now apply plan_injection_points_slots with (n := n).
  - intros e He Hne. unfold plan_injection_points.
    destruct (functions structure) as [|func rest]; [contradiction|].
    simpl. rewrite He. simpl. split; [reflexivity|].
    destruct spec; simpl in He; try discriminate; now injection He as <-.
Qed.

(** ** The splicer, continued *)

Lemma join_app (sep : str) (l1 l2 : list str) :
  l1 <> [] -> l2 <> [] ->
  join sep (l1 ++ l2) = join sep l1 ++ sep ++ join sep l2.
Proof.
  intros H1 H2. induction l1 as [|x l1 IH]; [contradiction|].
  destruct l1 as [|y l1].
  - simpl. destruct l2; [contradiction | reflexivity].
  - change (join sep ((x :: y :: l1) ++ l2))
      with (x ++ sep ++ join sep ((y :: l1) ++ l2)).
    rewrite IH by discriminate.
    change (join sep (x :: y :: l1)) with (x ++ sep ++ join sep (y :: l1)).
    now rewrite <- !app_assoc.
Qed.

(** Header and body lose nothing of the text: either the header is empty
    and the body is the text, or the text is the header, one newline and
    the body, or the last line of the text is the last include line and
    the header is the whole text. *)
Theorem header_and_body_rebuild_text (c_code : str) :
  let header := fst (split_header_body c_code) in
  let body := snd (split_header_body c_code) in
  (header = [] /\ body = c_code)
  \/ c_code = header ++ [NL] ++ body
  \/ (body = [] /\ c_code = header).
Proof.
  unfold split_header_body, upto, from.
  destruct (scan_includes_range (split_lines c_code) 0 (-1)) as [-> | H];
    [now left|].
  destruct (0 <=? scan_includes 0 (split_lines c_code) (-1))%Z eqn:E;
    [|now left].
  right. simpl.
  set (k := Z.to_nat (scan_includes 0 (split_lines c_code) (-1) + 1)).
  assert (Hk : 1 <= k <= List.length (split_lines c_code)) by lia.
  pose proof (firstn_skipn k (split_lines c_code)) as Hsplit.
  pose proof (join_split_lines c_code) as Hjoin.
  assert (Hlen : List.length (firstn k (split_lines c_code)) = k)
    by (rewrite length_firstn; lia).
  destruct (firstn k (split_lines c_code)) as [|y l1];
    [simpl in Hlen; lia|].
  destruct (skipn k (split_lines c_code)) as [|x rest].
  - right. rewrite app_nil_r in Hsplit. now rewrite Hsplit, Hjoin.
  - left. rewrite <- Hjoin at 1. rewrite <- Hsplit.
    apply join_app; discriminate.
Qed.

Lemma subsequence_refl {A} (l : list A) : subsequence l l.
Proof. induction l; constructor; auto. Qed.

Lemma subsequence_trans {A} (l1 l2 l3 : list A) :
  subsequence l1 l2 -> subsequence l2 l3 -> subsequence l1 l3.
Proof.
  intros H12 H23. revert l1 H12.
  induction H23 as [|x l2 l3 _ IH|x l2 l3 _ IH]; intros l1 H12.
  - exact H12.
  - inversion H12; subst; constructor; auto.
  - constructor; auto.
Qed.

Lemma subsequence_insert {A} (l ins : list A) (n : nat) :
  subsequence l (firstn n l ++ ins ++ skipn n l).
Proof.
  rewrite <- (firstn_skipn n l) at 1.
  induction (firstn n l) as [|x pre IH]; simpl.
  - induction ins as [|y ins IHi]; simpl;
      [apply subsequence_refl | now constructor].
  - now constructor.
Qed.

Lemma subsequence_length {A} (l1 l2 : list A) :
  subsequence l1 l2 -> List.length l1 <= List.length l2.
Proof. induction 1; simpl; lia. Qed.

(** Splicing only inserts: whatever the points and the fragments, the
    text that comes out holds every character of the body, in order;
    nothing of the source is removed, replaced or moved. *)
Theorem splicing_only_inserts
  (spec : value) (points : list InjectionPoint.t) (body result : str) :
  splice_points spec points body = Ok result ->
  subsequence body result /\ List.length body <= List.length result.
Proof.
  intros H.
  assert (S : subsequence body result).
  { revert body H. unfold splice_points.
    induction points as [|p points IH]; simpl; intros body H.
    - injection H as <-. apply subsequence_refl.
    - destruct (splice_point spec body p) as [r1|] eqn:E; simpl in H;
        [|discriminate].
      apply subsequence_trans with (l2 := r1); [|now apply IH].
      unfold splice_point in E.
      destruct (py_getitem spec _) as [v|]; simpl in E; [|discriminate].
      destruct (truthy v);
        [|injection E as <-; apply subsequence_refl].
      destruct (py_strip v) as [text|]; simpl in E; [|discriminate].
      destruct (nonempty text); injection E as <-;
        [|apply subsequence_refl].
      unfold upto, from.
      pose proof (subsequence_insert body (text ++ [NL])
                    (InjectionPoint.byte_position p)) as Hins.
      now rewrite <- app_assoc in Hins. }
  split; [exact S | now apply subsequence_length].
Qed.

(** ** The injector and the orchestrator, continued *)

Section Injector.

Variable parse : list byte -> Node.


(** The triple of [validate_and_inject] is always one of two shapes:
    success with a text and no message, or failure with a message and no
    text.  The call itself raises only what the extraction of the
    skeleton or of the completion raises; nothing raised by the injection
    escapes. *)
Theorem validate_and_inject_outcomes
  (skeleton completion : str) (spec : value) :
  match validate_and_inject parse skeleton completion spec with
  | Ok (true, Some _, None) => True
  | Ok (false, None, Some _) => True
  | Ok _ => False
  | Raise e =>
      extract_structure parse skeleton = Raise e
      \/ extract_structure parse completion = Raise e
  end.
Proof.
  unfold validate_and_inject, validate_completion_matches_skeleton.
  destruct (extract_structure parse skeleton) as [skel|e]; simpl; [|auto].
  destruct (extract_structure parse completion) as [comp|e]; simpl; [|auto].
  destruct (_compare_structures skel comp) as [[|] error]; simpl; [|exact I].
  destruct (inject_acsl_specs_treesitter parse spec completion); exact I.
Qed.

Lemma validate_spec_structure_accepts (spec : value) :
  validate_spec_structure spec = (true, None) ->
  exists preds rest,
    spec = PyList (PyList preds :: rest)
    /\ Forall (fun v => is_str v = true) preds
    /\ Forall (fun v => is_str v = true) rest.
Proof.
  destruct spec as [| z | s | items]; simpl; try discriminate.
  destruct items as [|first rest]; [discriminate|].
  destruct first as [| z | s | preds]; try discriminate.
  destruct (first_non_str 0 preds) as [[i pred]|] eqn:Ep; [discriminate|].
  destruct (first_non_str 1 rest) as [[i item]|] eqn:Er; [discriminate|].
  intros _. exists preds, rest.
  apply first_non_str_none in Ep, Er. auto.
Qed.

Lemma stripped_predicates_of_strings (preds : list value) :
  Forall (fun v => is_str v = true) preds ->
  exists kept, stripped_predicates preds = Ok kept.
Proof.
  induction 1 as [|pred preds Hp _ [kept IH]]; simpl; [eauto|].
  destruct pred; try discriminate. simpl.
  destruct (negb (List.length s =? 0)); simpl; rewrite IH; simpl; eauto.
Qed.

Lemma splice_points_of_strings (l : list value)
  (points : list InjectionPoint.t) :
  Forall (fun p => exists t,
            nth_error l (InjectionPoint.spec_index p) = Some (PyStr t))
    points ->
  forall body, exists result,
    splice_points (PyList l) points body = Ok result.
Proof.
  unfold splice_points.
  induction 1 as [|p points [t Ht] _ IH]; simpl; intros body; [eauto|].
  unfold splice_point at 1. simpl. rewrite Ht. simpl.
  destruct (negb (List.length t =? 0)); simpl; [|apply IH].
  destruct (nonempty (strip t)); apply IH.
Qed.

Lemma planned_points_in_range (structure : CodeStructure) (k : nat)
  (p : InjectionPoint.t) :
  In p (firstn k (slots structure)) ->
  1 <= InjectionPoint.spec_index p <= k.
Proof.
  intros Hin. apply In_nth_error in Hin. destruct Hin as [j Hj].
  rewrite nth_error_firstn in Hj.
  destruct (j <? k) eqn:E; [|discriminate].
  apply Nat.ltb_lt in E. apply function_slots_index in Hj. lia.
Qed.

(** A fragment sequence that [validate_spec_structure] accepts never
    makes the injection raise: if the body of the text can be extracted,
    the injector returns a text, and [validate_and_inject] on a matching
    pair returns success. *)
Theorem accepted_fragments_inject_without_error
  (spec : value) (skeleton completion : str)
  (skel comp body_structure : CodeStructure) :
  validate_spec_structure spec = (true, None) ->
  extract_structure parse (snd (split_header_body completion))
  = Ok body_structure ->
  (exists out, inject_acsl_specs_treesitter parse spec completion = Ok out)
  /\ (extract_structure parse skeleton = Ok skel ->
      extract_structure parse completion = Ok comp ->
      _compare_structures skel comp = (true, None) ->
      exists out,
        validate_and_inject parse skeleton completion spec
        = Ok (true, Some out, None)).
Proof.
  intros Hv Hbody.
  assert (Hinj : exists out,
             inject_acsl_specs_treesitter parse spec completion = Ok out).
  { apply validate_spec_structure_accepts in Hv.
    destruct Hv as (preds & rest & -> & Hp & Hr).
    unfold inject_acsl_specs_treesitter. simpl.
    destruct rest as [|r0 rest']; [simpl; eauto|].
    set (rest := r0 :: rest') in *.
    replace (S (List.length rest) <=? 1) with false
      by (symmetry; apply Nat.leb_gt; simpl; lia).
    destruct (split_header_body completion) as [header body].
    simpl in Hbody.
    assert (Hpred : exists text,
               predicates_text_of (PyList (PyList preds :: rest)) = Ok text).
    { unfold predicates_text_of. simpl.
      destruct (negb (List.length preds =? 0)); simpl; [|eauto].
      destruct (negb (List.length preds =? 0)); simpl; [|eauto].
      destruct (stripped_predicates_of_strings Hp) as [kept ->].
      simpl. eauto. }
    destruct Hpred as [text ->]. simpl.
    unfold find_injection_points. rewrite Hbody. simpl.
    rewrite (@plan_injection_points_slots
               (PyList (PyList preds :: rest)) _ eq_refl).
    cbn [bind].
    destruct (@splice_points_of_strings (PyList preds :: rest)
                (sort_key_reverse InjectionPoint.byte_position
                   (firstn (List.length (PyList preds :: rest) - 1)
                      (slots body_structure)))) with (body := body)
      as [result Hres].
    - apply (Permutation_Forall
               (Permutation_sym (sort_key_reverse_perm _ _))).
      apply Forall_forall. intros p Hin.
      apply planned_points_in_range in Hin. simpl in Hin.
      destruct (InjectionPoint.spec_index p) as [|i]; [lia|].
      simpl.
      destruct (nth_error rest i) as [v|] eqn:Ev;
        [|apply nth_error_None in Ev; simpl in Ev; lia].
      assert (Hs : is_str v = true).
      { rewrite Forall_forall in Hr. apply Hr.
        now apply nth_error_In with (n := i). }
      destruct v; try discriminate. eauto.
    - rewrite Hres. cbn [bind]. eauto. }
  split; [exact Hinj|].
  intros Hs Hc Hcmp. destruct Hinj as [out Hout]. exists out.
  unfold validate_and_inject, validate_completion_matches_skeleton.
  rewrite Hs, Hc. simpl. rewrite Hcmp. simpl. now rewrite Hout.
Qed.

End Injector.

(** ** [validate_spec_structure], continued *)

Lemma first_non_str_app (pre post : list value) (bad : value) :
  Forall (fun v => is_str v = true) pre ->
  is_str bad = false ->
  forall i,
    first_non_str i (pre ++ bad :: post) = Some (i + List.length pre, bad).
Proof.
  intros Hpre Hbad.
  induction Hpre as [|v pre Hv _ IH]; intros i; simpl.
  - rewrite Hbad. f_equal. f_equal. lia.
  - rewrite Hv, IH. f_equal. f_equal. lia.
Qed.

(** The message of [validate_spec_structure] points at the first element
    that is not a string: a predicate before any fragment, the lowest
    index first, the fragments counted from 1 as they sit in [spec]; it
    gives the class of the offending object. *)
Theorem spec_check_reports_first_offender
  (pre post others : list value) (bad : value) :
  Forall (fun v => is_str v = true) pre ->
  is_str bad = false ->
  validate_spec_structure (PyList (PyList (pre ++ bad :: post) :: others))
  = (false,
     Some (lit "spec[0][" ++ dec (List.length pre)
           ++ lit "] (predicate) must be a string, got " ++ class_repr bad))
  /\ (Forall (fun v => is_str v = true) others ->
      validate_spec_structure (PyList (PyList others :: pre ++ bad :: post))
      = (false,
         Some (lit "spec[" ++ dec (1 + List.length pre)
               ++ lit "] (function/loop spec) must be a string, got "
               ++ class_repr bad))).
Proof.
  intros Hpre Hbad. split.
  - simpl. now rewrite (@first_non_str_app pre post bad Hpre Hbad).
  - intros Hothers. simpl.
    apply first_non_str_none with (i := 0) in Hothers. rewrite Hothers.
    now rewrite (@first_non_str_app pre post bad Hpre Hbad).
Qed.

(** ** The helpers of [injection.py] *)

Lemma scan_braces_closed (rest : str) (pos : nat) :
  scan_braces rest 0 pos = pos.
Proof. destruct rest; reflexivity. Qed.

Lemma brace_depth_step (c : char) (s : str) (j : nat) :
  brace_depth (firstn (S j) (c :: s))
  = ((if char_eqb c OPEN_BRACE then 1
      else if char_eqb c CLOSE_BRACE then -1 else 0)
     + brace_depth (firstn j s))%Z.
Proof. reflexivity. Qed.

(** The scan with [d + 1] braces open stops after the first prefix that
    closes them all, on a closing brace, or runs to the end of the text. *)
Lemma scan_braces_spec (rest : str) :
  forall d pos,
    (exists k,
        k < List.length rest
        /\ nth_error rest k = Some CLOSE_BRACE
        /\ brace_depth (firstn (S k) rest) = (- Z.of_nat (S d))%Z
        /\ (forall j, j <= k ->
                      (- Z.of_nat (S d) < brace_depth (firstn j rest))%Z)
        /\ scan_braces rest (S d) pos = pos + S k)
    \/ ((forall j, (- Z.of_nat (S d) < brace_depth (firstn j rest))%Z)
        /\ scan_braces rest (S d) pos = pos + List.length rest).
Proof.
  induction rest as [|c t IH]; intros d pos.
  - right. split; [intros j; rewrite firstn_nil; simpl; lia|].
    simpl. lia.
  - cbn [scan_braces].
    assert (Hstep : forall d',
      (brace_depth (firstn 1 (c :: t)) + - Z.of_nat (S d')
       = - Z.of_nat (S d))%Z ->
      (exists k,
          k < List.length (c :: t)
          /\ nth_error (c :: t) k = Some CLOSE_BRACE
          /\ brace_depth (firstn (S k) (c :: t)) = (- Z.of_nat (S d))%Z
          /\ (forall j, j <= k ->
                 (- Z.of_nat (S d) < brace_depth (firstn j (c :: t)))%Z)
          /\ scan_braces t (S d') (pos + 1) = pos + S k)
      \/ ((forall j,
             (- Z.of_nat (S d) < brace_depth (firstn j (c :: t)))%Z)
          /\ scan_braces t (S d') (pos + 1)
             = pos + List.length (c :: t))).
    { intros d' Hc.
      change (firstn 1 (c :: t)) with (c :: firstn 0 t) in Hc.
      cbn [brace_depth firstn] in Hc.
      destruct (IH d' (pos + 1)) as
        [(k & Hk & Hn & Hd & Hpre & Hs) | (Hpre & Hs)].
      - left. exists (S k).
        split; [simpl; lia|]. split; [exact Hn|].
        split; [rewrite brace_depth_step, Hd; lia|].
        split; [|rewrite Hs; lia].
        intros [|j] Hj;
          [change (brace_depth (firstn 0 (c :: t))) with 0%Z; lia|].
        rewrite brace_depth_step. specialize (Hpre j). lia.
      - right. split; [|rewrite Hs; simpl; lia].
        intros [|j];
          [change (brace_depth (firstn 0 (c :: t))) with 0%Z; lia|].
        rewrite brace_depth_step. specialize (Hpre j). lia. }
    destruct (char_eqb c OPEN_BRACE) eqn:Eo.
    + replace (S d + 1) with (S (S d)) by lia.
      apply Hstep.
      change (firstn 1 (c :: t)) with (c :: firstn 0 t).
      cbn [brace_depth firstn]. rewrite Eo. lia.
    + destruct (char_eqb c CLOSE_BRACE) eqn:Ec.
      * replace (S d - 1) with d by lia.
        destruct d as [|d].
        -- left. exists 0. rewrite scan_braces_closed.
           split; [simpl; lia|].
           split; [apply N.eqb_eq in Ec; now subst c|].
           split; [rewrite brace_depth_step, Eo, Ec;
                   change (brace_depth (firstn 0 t)) with 0%Z; lia|].
           split; [|lia].
           intros j Hj. replace j with 0 by lia.
           change (brace_depth (firstn 0 (c :: t))) with 0%Z. lia.
        -- apply Hstep.
           change (firstn 1 (c :: t)) with (c :: firstn 0 t).
           cbn [brace_depth firstn]. rewrite Eo, Ec. lia.
      * apply Hstep.
        change (firstn 1 (c :: t)) with (c :: firstn 0 t).
        cbn [brace_depth firstn]. rewrite Eo, Ec. lia.
Qed.

(** [_find_function_bounds] returns its start unchanged and, as end, the
    position of the first closing brace after the start at which the
    closing braces outnumber the opening ones, all braces of the text
    counting, those of strings and comments too.  When there is no such
    brace the end is the last position of the text, or the start itself
    when the start is the last position or lies beyond. *)
Theorem function_bounds_end_at_matching_brace
  (c_code : str) (function_start : nat) :
  let inside := from (function_start + 1) c_code in
  let bounds := _find_function_bounds c_code function_start in
  fst bounds = function_start
  /\ ((exists k,
         snd bounds = function_start + 1 + k
         /\ nth_error c_code (snd bounds) = Some CLOSE_BRACE
         /\ brace_depth (firstn (S k) inside) = (-1)%Z
         /\ forall j, j <= k -> (0 <= brace_depth (firstn j inside))%Z)
      \/ (snd bounds = function_start + List.length inside
          /\ forall j, (0 <= brace_depth (firstn j inside))%Z)).
Proof.
  unfold _find_function_bounds, from. simpl. split; [reflexivity|].
  destruct (scan_braces_spec (skipn (function_start + 1) c_code) 0
              (function_start + 1))
    as [(k & Hk & Hn & Hd & Hpre & Hs) | (Hpre & Hs)]; rewrite Hs.
  - left. exists k.
    replace (function_start + 1 + S k - 1) with (function_start + 1 + k)
      by lia.
    rewrite nth_error_skipn in Hn.
    repeat split; auto.
    intros j Hj. specialize (Hpre j Hj). lia.
  - right. split; [lia|]. intros j. specialize (Hpre j). lia.
Qed.

Section LoopKeywords.

Variable is_word : char -> bool.

Lemma keyword_matches_in_text (keyword : str) (s : str) :
  forall prev skip pos p,
    In p (keyword_matches is_word keyword prev skip pos s) ->
    pos <= p < pos + List.length s
    /\ strip_prefix keyword (skipn (p - pos) s) <> None.
Proof.
  induction s as [|c t IH]; intros prev skip pos p; simpl; [contradiction|].
  assert (Hrec : forall prev' skip',
             In p (keyword_matches is_word keyword prev' skip' (S pos) t) ->
             pos <= p < pos + S (List.length t)
             /\ strip_prefix keyword (skipn (p - pos) (c :: t)) <> None).
  { intros prev' skip' Hin. apply IH in Hin. destruct Hin as [Hr Hp].
    split; [lia|].
    replace (p - pos) with (S (p - S pos)) by lia. exact Hp. }
  destruct skip as [|k]; [|apply Hrec].
  destruct (keyword_match_length is_word keyword prev (c :: t)) as [len|]
    eqn:E; [|apply Hrec].
  intros [<- | Hin]; [|now apply Hrec in Hin].
  split; [lia|]. rewrite Nat.sub_diag. simpl skipn.
  unfold keyword_match_length in E.
  destruct (word_boundary is_word prev (hd_error (c :: t)));
    [|discriminate].
  destruct (strip_prefix keyword (c :: t)); [discriminate | discriminate E].
Qed.

Lemma strip_prefix_firstn (keyword s : str) (n : nat) :
  strip_prefix keyword (firstn n s) <> None ->
  strip_prefix keyword s <> None.
Proof.
  revert s n; induction keyword as [|k keyword IH]; intros s n;
    [destruct s; simpl; discriminate|].
  destruct n as [|n]; destruct s as [|c s]; simpl; try congruence.
  destruct (char_eqb k c); [apply IH | congruence].
Qed.

(** Every loop that [_find_loops_in_range] reports is tagged [while] or
    [for], lies inside the range and inside the text, and the text at its
    position starts with its keyword; the list is in ascending order of
    position. *)
Theorem loops_in_range_sorted_and_inside
  (c_code : str) (start_pos end_pos : nat) :
  let found := _find_loops_in_range is_word c_code start_pos end_pos in
  StronglySorted (fun a b => snd a <= snd b) found
  /\ Forall (fun loop =>
               (fst loop = lit "while" \/ fst loop = lit "for")
               /\ start_pos <= snd loop < end_pos
               /\ snd loop < List.length c_code
               /\ strip_prefix (fst loop) (from (snd loop) c_code) <> None)
       found.
Proof.
  unfold _find_loops_in_range.
  split; [apply (sort_key_sorted (@snd str nat))|].
  apply (Permutation_Forall (Permutation_sym (sort_key_perm _ _))).
  assert (H : forall keyword,
             Forall (fun loop =>
                       fst loop = keyword
                       /\ start_pos <= snd loop < end_pos
                       /\ snd loop < List.length c_code
                       /\ strip_prefix (fst loop) (from (snd loop) c_code)
                          <> None)
               (map (fun p => (keyword, start_pos + p))
                  (keyword_matches is_word keyword None 0 0
                     (slice start_pos end_pos c_code)))).
  { intros keyword. apply Forall_forall. intros loop Hin.
    apply in_map_iff in Hin. destruct Hin as (p & <- & Hin).
    apply keyword_matches_in_text in Hin. destruct Hin as [Hr Hp].
    unfold slice in Hr, Hp. rewrite length_firstn, length_skipn in Hr.
    simpl. split; [reflexivity|]. split; [lia|]. split; [lia|].
    rewrite Nat.sub_0_r in Hp.
    rewrite skipn_firstn_comm in Hp. apply strip_prefix_firstn in Hp.
    rewrite skipn_skipn in Hp. unfold from.
    now rewrite Nat.add_comm. }
  apply Forall_app. split.
  - eapply Forall_impl; [|apply (H (lit "while"))].
    intros loop (E & Hrest). split; [now left | exact Hrest].
  - eapply Forall_impl; [|apply (H (lit "for"))].
    intros loop (E & Hrest). split; [now right | exact Hrest].
Qed.

End LoopKeywords.

(** ** Where the points sit *)

Lemma loop_slots_on_loops (func : FunctionInfo.t) (loops : list LoopInfo.t) :
  forall loop_idx idx p,
    In p (loop_slots func loop_idx loops idx) ->
    InjectionPoint.type p = loop_point
    /\ exists loop,
         In loop loops
         /\ InjectionPoint.byte_position p = LoopInfo.byte_position loop
         /\ InjectionPoint.line_number p = LoopInfo.line_number loop.
Proof.
  induction loops as [|loop rest IH]; intros loop_idx idx p; simpl;
    [contradiction|].
  intros [<- | Hin].
  - simpl. split; [reflexivity|]. exists loop. auto.
  - apply IH in Hin. destruct Hin as (Ht & l & Hl & Hp).
    split; [exact Ht|]. exists l. auto.
Qed.

Lemma function_slots_on_structure (funcs : list FunctionInfo.t) :
  forall idx p,
    In p (function_slots funcs idx) ->
    exists func,
      In func funcs
      /\ ((InjectionPoint.type p = function_point
           /\ InjectionPoint.byte_position p = FunctionInfo.byte_position func
           /\ InjectionPoint.line_number p = FunctionInfo.line_number func)
          \/ (InjectionPoint.type p = loop_point
              /\ exists loop,
                   In loop (FunctionInfo.loops func)
                   /\ InjectionPoint.byte_position p
                      = LoopInfo.byte_position loop
                   /\ InjectionPoint.line_number p
                      = LoopInfo.line_number loop)).
Proof.
  induction funcs as [|func rest IH]; intros idx p; simpl; [contradiction|].
  intros [<- | Hin].
  - exists func. simpl. auto.
  - apply in_app_or in Hin. destruct Hin as [Hin | Hin].
    + apply loop_slots_on_loops in Hin. exists func. auto.
    + apply IH in Hin. destruct Hin as (f & Hf & H). exists f. auto.
Qed.

(** The planner invents no position: every point it returns, for any
    object given as [spec], carries the byte position and line number of
    a function of the structure, as a [function] point, or of a loop of
    one of its functions, as a [loop] point. *)
Theorem planned_points_sit_on_structure
  (structure : CodeStructure) (spec : value)
  (points : list InjectionPoint.t) :
  plan_injection_points structure spec = Ok points ->
  Forall
    (fun p =>
       exists func,
         In func (functions structure)
         /\ ((InjectionPoint.type p = function_point
              /\ InjectionPoint.byte_position p
                 = FunctionInfo.byte_position func
              /\ InjectionPoint.line_number p
                 = FunctionInfo.line_number func)
             \/ (InjectionPoint.type p = loop_point
                 /\ exists loop,
                      In loop (FunctionInfo.loops func)
                      /\ InjectionPoint.byte_position p
                         = LoopInfo.byte_position loop
                      /\ InjectionPoint.line_number p
                         = LoopInfo.line_number loop)))
    points.
Proof.
  intros H. destruct (py_len spec) as [n|e] eqn:En.
  - rewrite (@plan_injection_points_slots spec n En) in H.
    injection H as <-.
    apply (Permutation_Forall (Permutation_sym (sort_key_reverse_perm _ _))).
    apply Forall_forall. intros p Hin.
    apply (function_slots_on_structure (functions structure) 1).
    unfold slots in Hin.
    rewrite <- (firstn_skipn (n - 1)). apply in_or_app. now left.
  - unfold plan_injection_points in H.
    destruct (functions structure) as [|func rest].
    + simpl in H. injection H as <-. constructor.
    + simpl in H. rewrite En in H. discriminate.
Qed.

(** ** The final clean-up *)

Lemma collapse_blank_lines_skip (s : str) :
  forall k,
    collapse_blank_lines k s = collapse_blank_lines 0 (skipn k s).
Proof.
  induction s as [|c t IH]; intros [|k]; try reflexivity.
  simpl. apply IH.
Qed.

Lemma count_newlines_rev (a : str) :
  count_newlines (rev a) = count_newlines a.
Proof.
  induction a as [|c a IH]; [reflexivity|].
  simpl rev. rewrite count_newlines_app, IH.
  unfold count_newlines. simpl. destruct (char_eqb c NL); simpl; lia.
Qed.

Lemma take_while_holds {A} (p : A -> bool) (l : list A) :
  Forall (fun x => p x = true) (take_while p l).
Proof.
  induction l as [|x l IH]; simpl; [constructor|].
  destruct (p x) eqn:E; constructor; auto.
Qed.

Lemma take_while_app_all {A} (p : A -> bool) (l1 l2 : list A) :
  Forall (fun x => p x = true) l1 ->
  take_while p (l1 ++ l2) = l1 ++ take_while p l2.
Proof.
  induction 1 as [|x l1 Hx _ IH]; simpl; [reflexivity|].
  now rewrite Hx, IH.
Qed.

Lemma no_newline_count (l : str) :
  Forall (fun c => negb (char_eqb c NL) = true) l -> count_newlines l = 0.
Proof.
  unfold count_newlines.
  induction 1 as [|c l Hc _ IH]; simpl; [reflexivity|].
  apply negb_true_iff in Hc. now rewrite Hc.
Qed.

(** After the match at the head of a white-space run, what is left of the
    run has no newline. *)
Lemma blank_match_rest (s : str) :
  let m := blank_match_length (take_while is_space s) in
  count_newlines (take_while is_space (skipn m s)) = 0
  /\ (1 <= count_newlines (take_while is_space s) -> 1 <= m).
Proof.
  intros m. subst m. unfold blank_match_length.
  set (run := take_while is_space s).
  set (notnl := fun c => negb (char_eqb c NL)).
  pose proof (take_drop_while_app notnl (rev run)) as Hrev.
  set (A := take_while notnl (rev run)) in *.
  set (B := drop_while notnl (rev run)) in *.
  assert (Hrun : run = rev B ++ rev A).
  { rewrite <- rev_app_distr, Hrev. now rewrite rev_involutive. }
  assert (HA : count_newlines A = 0)
    by (apply no_newline_count, (take_while_holds notnl)).
  split.
  - pose proof (take_drop_while_app is_space s) as Hs. fold run in Hs.
    rewrite <- Hs, Hrun, <- app_assoc.
    rewrite skipn_app, length_rev, Nat.sub_diag, skipn_all2
      by (rewrite length_rev; lia).
    simpl.
    rewrite take_while_app_all.
    + assert (Hd : take_while is_space (drop_while is_space s) = []).
      { pose proof (drop_while_space_head s) as Hh.
        destruct (drop_while is_space s); [reflexivity|].
        simpl in Hh |- *. now rewrite Hh. }
      rewrite Hd, app_nil_r, count_newlines_rev. exact HA.
    + pose proof (take_while_holds is_space s) as Hall. fold run in Hall.
      rewrite Hrun in Hall. apply Forall_app in Hall. tauto.
  - intros Hnl. rewrite Hrun, count_newlines_app, !count_newlines_rev, HA
      in Hnl.
    destruct B; [simpl in Hnl; lia | simpl; lia].
Qed.

Lemma newlines_of_run_cons (c : char) (t : str) :
  count_newlines (take_while is_space (c :: t))
  = if is_space c
    then (if char_eqb c NL then 1 else 0)
         + count_newlines (take_while is_space t)
    else 0.
Proof.
  simpl. destruct (is_space c); [|reflexivity].
  unfold count_newlines. simpl. destruct (char_eqb c NL); reflexivity.
Qed.

Lemma newline_is_space (c : char) : char_eqb c NL = true -> is_space c = true.
Proof. intros H. apply N.eqb_eq in H. now subst c. Qed.

Lemma collapse_blank_lines_head (n : nat) :
  forall s,
    List.length s <= n ->
    count_newlines (take_while is_space (collapse_blank_lines 0 s))
    <= Nat.min (count_newlines (take_while is_space s)) 2.
Proof.
  induction n as [|n IH]; intros [|c t] Hlen; simpl in Hlen;
    try (unfold count_newlines; simpl; lia).
  cbn [collapse_blank_lines].
  destruct (char_eqb c NL
            && (3 <=? count_newlines (take_while is_space (c :: t))))
    eqn:E.
  - apply andb_true_iff in E. destruct E as [Ec E3].
    apply Nat.leb_le in E3.
    destruct (blank_match_rest (c :: t)) as [Hrest Hm].
    set (m := blank_match_length (take_while is_space (c :: t))) in *.
    assert (Hm1 : 1 <= m) by (apply Hm; lia).
    rewrite collapse_blank_lines_skip.
    replace (skipn (m - 1) t) with (skipn m (c :: t))
      by (destruct m; [lia | simpl; now rewrite Nat.sub_0_r]).
    assert (Hshort : List.length (skipn m (c :: t)) <= n)
      by (rewrite length_skipn; cbn [List.length]; lia).
    specialize (IH _ Hshort). rewrite Hrest in IH.
    rewrite !newlines_of_run_cons.
    rewrite (newlines_of_run_cons c t) in E3.
    rewrite (@newline_is_space c Ec), Ec in E3 |- *.
    change (is_space NL) with true. change (char_eqb NL NL) with true.
    cbn iota. lia.
  - rewrite newlines_of_run_cons.
    rewrite (newlines_of_run_cons c t) in E |- *.
    specialize (IH t ltac:(lia)).
    destruct (is_space c) eqn:Es; [|lia].
    destruct (char_eqb c NL) eqn:Ec; cbn [andb] in E; cbn iota in *;
      [apply Nat.leb_gt in E; lia | lia].
Qed.

Lemma collapse_blank_lines_single (n : nat) :
  forall s,
    List.length s <= n -> blank_lines_single (collapse_blank_lines 0 s).
Proof.
  unfold blank_lines_single.
  induction n as [|n IH]; intros s Hlen before rest Hout.
  - destruct s; [|simpl in Hlen; lia].
    simpl in Hout. destruct before; [|discriminate].
    simpl in Hout. subst rest. unfold count_newlines. simpl. lia.
  - destruct before as [|x before].
    + simpl in Hout. subst rest.
      pose proof (@collapse_blank_lines_head _ s (le_n _)). lia.
    + destruct s as [|c t]; [discriminate|].
      cbn [collapse_blank_lines] in Hout. simpl in Hlen.
      destruct (char_eqb c NL
                && (3 <=? count_newlines (take_while is_space (c :: t))))
        eqn:E.
      * apply andb_true_iff in E. destruct E as [Ec E3].
        apply Nat.leb_le in E3.
        destruct (blank_match_rest (c :: t)) as [Hrest Hm].
        set (m := blank_match_length (take_while is_space (c :: t))) in *.
        assert (Hm1 : 1 <= m) by (apply Hm; lia).
        rewrite collapse_blank_lines_skip in Hout.
        replace (skipn (m - 1) t) with (skipn m (c :: t)) in Hout
          by (destruct m; [lia | simpl; now rewrite Nat.sub_0_r]).
        assert (Hshort : List.length (skipn m (c :: t)) <= n)
          by (rewrite length_skipn; cbn [List.length]; lia).
        injection Hout as _ Hout.
        destruct before as [|y before].
        -- simpl in Hout. subst rest.
           pose proof (@collapse_blank_lines_head _ _ Hshort) as Hh.
           rewrite Hrest in Hh.
           rewrite newlines_of_run_cons.
           change (is_space NL) with true. change (char_eqb NL NL) with true.
           cbn iota. lia.
        -- injection Hout as _ Hout. exact (IH _ Hshort _ _ Hout).
      * injection Hout as _ Hout. apply (IH t ltac:(lia) _ _ Hout).
Qed.

Lemma strip_inside (s : str) :
  exists lead trail, s = lead ++ strip s ++ trail.
Proof.
  unfold strip, rstrip, lstrip.
  exists (take_while is_space s),
    (rev (take_while is_space (rev (drop_while is_space s)))).
  rewrite <- rev_app_distr, take_drop_while_app, rev_involutive.
  symmetry. apply take_drop_while_app.
Qed.

Lemma newlines_of_run_app (u v : str) :
  count_newlines (take_while is_space u)
  <= count_newlines (take_while is_space (u ++ v)).
Proof.
  induction u as [|c u IH]; [unfold count_newlines; simpl; lia|].
  rewrite <- app_comm_cons, !newlines_of_run_cons.
  destruct (is_space c); lia.
Qed.

Lemma strip_keeps_blank_lines_single (s : str) :
  blank_lines_single s -> blank_lines_single (strip s).
Proof.
  unfold blank_lines_single. intros H before rest E.
  destruct (strip_inside s) as (lead & trail & Hs).
  rewrite E, <- app_assoc in Hs. rewrite app_assoc in Hs.
  specialize (H _ _ Hs).
  pose proof (newlines_of_run_app rest trail). lia.
Qed.

(** With two or more elements in [spec], no stretch of white space of the
    text the injector returns holds more than two newlines: the source's
    own runs of blank lines are cut down to one blank line as well. *)
Theorem injected_text_has_single_blank_lines
  (parse : list byte -> Node) (spec : value) (c_code out : str) (n : nat) :
  py_len spec = Ok n ->
  2 <= n ->
  inject_acsl_specs_treesitter parse spec c_code = Ok out ->
  blank_lines_single out.
Proof.
  unfold inject_acsl_specs_treesitter. intros Hn Hge.
  destruct (truthy spec) eqn:Et; simpl.
  - rewrite Hn. simpl.
    destruct (n <=? 1) eqn:En; [apply Nat.leb_le in En; lia|].
    destruct (split_header_body c_code) as [header body].
    destruct (predicates_text_of spec); simpl; [|discriminate].
    destruct (find_injection_points parse body spec); simpl;
      [|discriminate].
    destruct (splice_points spec _ body); simpl; [|discriminate].
    intros [= <-].
    apply strip_keeps_blank_lines_single.
    eapply collapse_blank_lines_single. apply le_n.
  - destruct spec as [| z | s | l]; simpl in Hn, Et; try discriminate;
      injection Hn as <-;
      [destruct s | destruct l]; simpl in *; try discriminate; lia.
Qed.

(** ** The further properties at the sample texts *)



Lemma nested_plan :
  plan_injection_points Samples.nested_structure Samples.four_fragments
  = Ok (sort_key_reverse InjectionPoint.byte_position
          (firstn 4 (slots Samples.nested_structure))).
Proof. vm_compute. reflexivity. Defined.

Lemma compare_structures_symmetric_transitive_witness :
  MoreSamples.moved 5 <> Samples.nested_structure
  /\ MoreSamples.moved 11 <> MoreSamples.moved 5
  /\ _compare_structures (MoreSamples.moved 5) Samples.nested_structure
     = (true, None)
  /\ _compare_structures Samples.nested_structure (MoreSamples.moved 11)
     = (true, None).
Proof.
  split; [vm_compute; discriminate|].
  split; [vm_compute; discriminate|].
  split.
  - apply (proj1 (compare_structures_symmetric_transitive
                    Samples.nested_structure (MoreSamples.moved 5)
                    Samples.nested_structure)).
    vm_compute. reflexivity.
  - apply (proj2 (compare_structures_symmetric_transitive
                    Samples.nested_structure (MoreSamples.moved 5)
                    (MoreSamples.moved 11))); vm_compute; reflexivity.
Defined.

Lemma extracted_functions_follow_the_tree_witness :
  map FunctionInfo.byte_position (functions Samples.nested_structure)
  = map TreeSitter.start_byte
      (filter (has_type "function_definition")
         (preorder (Samples.parse (Samples.bytes_of Samples.nested_text))))
  /\ In (TreeSitter.start_byte Samples.nested_inner)
       (map FunctionInfo.byte_position (functions Samples.nested_structure)).
Proof.
  destruct (@extracted_functions_follow_the_tree Samples.parse
              Samples.nested_text (Samples.bytes_of Samples.nested_text)
              Samples.nested_structure) as [Hmap Hall];
    [vm_compute; reflexivity | vm_compute; reflexivity |].
  split; [exact Hmap|].
  apply Hall; [|reflexivity].
  apply in_preorder_iff. vm_compute. tauto.
Defined.

Lemma loops_function_extracted :
  _extract_function_info MoreSamples.loops_function
    (Samples.bytes_of MoreSamples.loops_text) MoreSamples.loops_text
  = Ok MoreSamples.loops_info.
Proof. vm_compute. reflexivity. Defined.

Lemma extracted_loops_sorted_by_position_witness :
  StronglySorted
    (fun a b => LoopInfo.byte_position a <= LoopInfo.byte_position b)
    [MoreSamples.while_info; MoreSamples.for_info]
  /\ Permutation
       (map LoopInfo.byte_position
          [MoreSamples.while_info; MoreSamples.for_info])
       (map TreeSitter.start_byte
          (filter is_loop_node (preorder MoreSamples.loops_body)))
  /\ In (TreeSitter.start_byte MoreSamples.inner_for)
       (map LoopInfo.byte_position
          [MoreSamples.while_info; MoreSamples.for_info]).
Proof.
  destruct (@extracted_loops_sorted_by_position _ _ _ _
              loops_function_extracted) as [Hsorted Hbody].
  change (Permutation
            (map LoopInfo.byte_position
               [MoreSamples.while_info; MoreSamples.for_info])
            (map TreeSitter.start_byte
               (filter is_loop_node (preorder MoreSamples.loops_body)))
          /\ forall node,
               in_tree MoreSamples.loops_body node ->
               is_loop_node node = true ->
               In (TreeSitter.start_byte node)
                 (map LoopInfo.byte_position
                    [MoreSamples.while_info; MoreSamples.for_info]))
    in Hbody.
  destruct Hbody as [Hperm Hall].
  split; [exact Hsorted|]. split; [exact Hperm|].
  apply Hall; [|reflexivity].
  apply in_preorder_iff. vm_compute. tauto.
Defined.




Lemma planned_points_use_each_fragment_once_witness :
  NoDup (map InjectionPoint.spec_index
           (sort_key_reverse InjectionPoint.byte_position
              (firstn 4 (slots Samples.nested_structure)))).
Proof.
  exact (proj2 (@planned_points_use_each_fragment_once
                  Samples.nested_structure
                  [PyList []; PyStr (lit "/*A*/"); PyStr (lit "/*B*/");
                   PyStr (lit "/*C*/"); PyStr (lit "/*D*/")]
                  _ nested_plan)).
Defined.

Lemma planner_raises_only_without_len_witness :
  plan_injection_points Samples.plain_structure (PyInt 5)
  = Raise (Exn TypeError (lit "object of type 'int' has no len()"))
  /\ exn_type (Exn TypeError (lit "object of type 'int' has no len()"))
     = TypeError.
Proof.
  apply (proj2 (proj2 (planner_raises_only_without_len
                         Samples.plain_structure (PyInt 5))));
    [reflexivity | discriminate].
Defined.

Lemma splicing_only_inserts_witness :
  exists result,
    splice_points Samples.four_fragments
      (sort_key_reverse InjectionPoint.byte_position
         (firstn 4 (slots Samples.nested_structure)))
      Samples.nested_text = Ok result
    /\ subsequence Samples.nested_text result.
Proof.
  eexists. split; [vm_compute; reflexivity|].
  refine (proj1 (@splicing_only_inserts Samples.four_fragments
                   (sort_key_reverse InjectionPoint.byte_position
                      (firstn 4 (slots Samples.nested_structure)))
                   Samples.nested_text _ _)).
  vm_compute. reflexivity.
Defined.


Lemma accepted_fragments_inject_without_error_witness :
  exists out,
    inject_acsl_specs_treesitter Samples.parse Samples.one_fragment
      Samples.plain_text = Ok out.
Proof.
  refine (proj1 (@accepted_fragments_inject_without_error Samples.parse
                   Samples.one_fragment Samples.plain_text
                   Samples.plain_text Samples.plain_structure
                   Samples.plain_structure Samples.plain_structure
                   eq_refl _)).
  vm_compute. reflexivity.
Defined.

Lemma spec_check_reports_first_offender_witness :
  validate_spec_structure
    (PyList [PyList [PyStr (lit "p"); PyInt 3]; PyStr (lit "s")])
  = (false,
     Some (lit "spec[0][" ++ dec 1
           ++ lit "] (predicate) must be a string, got "
           ++ class_repr (PyInt 3))).
Proof.
  refine (proj1 (@spec_check_reports_first_offender [PyStr (lit "p")] []
                   [PyStr (lit "s")] (PyInt 3) _ eq_refl)).
  repeat constructor.
Defined.

Lemma planned_points_sit_on_structure_witness :
  Forall
    (fun p =>
       exists func,
         In func (functions Samples.nested_structure)
         /\ ((InjectionPoint.type p = function_point
              /\ InjectionPoint.byte_position p
                 = FunctionInfo.byte_position func
              /\ InjectionPoint.line_number p
                 = FunctionInfo.line_number func)
             \/ (InjectionPoint.type p = loop_point
                 /\ exists loop,
                      In loop (FunctionInfo.loops func)
                      /\ InjectionPoint.byte_position p
                         = LoopInfo.byte_position loop
                      /\ InjectionPoint.line_number p
                         = LoopInfo.line_number loop)))
    (sort_key_reverse InjectionPoint.byte_position
       (firstn 4 (slots Samples.nested_structure))).
Proof.
  exact (@planned_points_sit_on_structure Samples.nested_structure
           Samples.four_fragments _ nested_plan).
Defined.

Lemma injected_text_has_single_blank_lines_witness :
  count_newlines (take_while is_space (skipn 6 MoreSamples.spaced_text)) = 4
  /\ inject_acsl_specs_treesitter MoreSamples.parse Samples.one_fragment
       MoreSamples.spaced_text
     = Ok (lit "int x;" ++ [NL; NL] ++ lit "/*@ ensures x; */" ++ [NL]
           ++ lit "int f(){}")
  /\ blank_lines_single
       (lit "int x;" ++ [NL; NL] ++ lit "/*@ ensures x; */" ++ [NL]
        ++ lit "int f(){}").
Proof.
  split; [reflexivity|]. split; [vm_compute; reflexivity|].
  refine (@injected_text_has_single_blank_lines MoreSamples.parse
            Samples.one_fragment MoreSamples.spaced_text _ 2 eq_refl
            (le_n 2) _).
  vm_compute. reflexivity.
Defined.
